(** * awsinv: the collection orchestrator

    A shallow embedding of [pkg/orchestrator] (work matrix builder, bounded
    parallel executor, result aggregator), of the parts of [pkg/models] and
    [pkg/aws] it relies on, and the properties of the design document that
    can be settled on it.

    Conventions of the embedding:
    - Go's [int] is [Z].  Every integer of the orchestrator is a length or
      a sum of lengths of slices that are alive at the same time, so no
      64-bit wrap-around can occur and none is written out.
    - A Go [map] is a [gomap]: either the nil map or a map created by
      [make], whose contents are a stdpp [gmap].  Reading a nil map yields
      the zero value, writing to it panics.
    - An [error] is the text its [Error()] method returns; [option error]
      is the interface value, [None] being [nil].
    - Code that reads the clock, calls AWS or can panic lives in the monad
      [M], a state monad over the [World] with results in [Result]. *)

From Stdlib Require Import ZArith String List Lia.
From stdpp Require Import base option list gmap strings fin_maps sorting.

Local Open Scope string_scope.
Local Open Scope list_scope.
Local Open Scope Z_scope.

(** ** Go runtime: results, maps, slices *)

(** What running a piece of Go code ends in. *)
Inductive Result (A : Type) : Type :=
  | Ok (a : A)               (* normal return *)
  | Panic (msg : string)     (* run-time panic *)
  | Hang.                    (* every goroutine blocked for ever *)
Arguments Ok {A} a.
Arguments Panic {A} msg.
Arguments Hang {A}.

#[global] Instance Result_ret : MRet Result := @Ok.
#[global] Instance Result_bind : MBind Result := λ A B f r,
  match r with
  | Ok a => f a
  | Panic msg => Panic msg
  | Hang => Hang
  end.

(** [for _, x := range l { s = body(s, x) }] *)
Fixpoint for_range `{MBind m, MRet m} {A S : Type}
    (l : list A) (body : S → A → m S) (s : S) : m S :=
  match l with
  | [] => mret s
  | x :: l' => s' ← body s x; for_range l' body s'
  end.

Definition len {A} (l : list A) : Z := Z.of_nat (length l).

Inductive gomap (V : Type) : Type :=
  | nil_map
  | made (m : gmap string V).
Arguments nil_map {V}.
Arguments made {V} m.

(** [make(map[string]V)] *)
Definition make_map {V} : gomap V := made ∅.

(** [m[k]] as an expression: the zero value when [k] is absent or [m] is nil. *)
Definition map_index {V} (zero : V) (m : gomap V) (k : string) : V :=
  match m with
  | nil_map => zero
  | made g => default zero (g !! k)
  end.

(** [m[k] = v] *)
Definition map_assign {V} (m : gomap V) (k : string) (v : V) : Result (gomap V) :=
  match m with
  | nil_map => Panic "assignment to entry in nil map"
  | made g => Ok (made (<[k := v]> g))
  end.

(** [m[k] += n], which reads [m[k]] and then assigns. *)
Definition map_add (m : gomap Z) (k : string) (n : Z) : Result (gomap Z) :=
  map_assign m k (map_index 0 m k + n).

Definition entries {V} (m : gomap V) : gmap string V :=
  match m with nil_map => ∅ | made g => g end.

Definition is_nil {V} (m : gomap V) : bool :=
  match m with nil_map => true | made _ => false end.

(** [sum(m.values())] *)
Definition sum_values (m : gomap Z) : Z :=
  map_fold (λ _ v acc, v + acc) 0 (entries m).

(** The order in which [for k := range m] visits the keys of a map is
    not specified by Go and changes from one loop to the next.  A
    [RangeOrder] is one such choice: any enumeration of the keys. *)
Record RangeOrder : Type := {
  range_keys : ∀ V, gmap string V → list string;
  range_keys_perm : ∀ V (g : gmap string V), range_keys V g ≡ₚ (map_to_list g).*1;
}.
Arguments range_keys _ {V} g.

Definition range_map {V} (ord : RangeOrder) (m : gomap V) : list string :=
  match m with nil_map => [] | made g => range_keys ord g end.

Definition table_order : RangeOrder :=
  {| range_keys := λ V g, (map_to_list g).*1;
     range_keys_perm := λ V g, reflexivity _ |}.

(** Another iteration order: the keys the other way round. *)
Definition reversed_order : RangeOrder :=
  {| range_keys := λ V g, reverse (map_to_list g).*1;
     range_keys_perm := λ V g, reverse_Permutation _ |}.

(** [strings.Join(elems, sep)] *)
Definition strings_Join (elems : list string) (sep : string) : string :=
  String.concat sep elems.

(** [sort.Strings]: increasing byte-wise order. *)
Fixpoint insert_sorted (x : string) (l : list string) : list string :=
  match l with
  | [] => [x]
  | y :: l' => if String.leb x y then x :: l else y :: insert_sorted x l'
  end.

Definition sort_Strings (l : list string) : list string :=
  foldr insert_sorted [] l.

(** [make(chan struct{}, n)]: the capacity of the new channel. *)
Definition make_chan (n : Z) : Result Z :=
  if n <? 0 then Panic "makechan: size out of range" else Ok n.

(** A [context.Context] as the orchestrator sees it through [Done()]. *)
Inductive Context : Type :=
  | Background       (* can never be cancelled *)
  | Pending          (* not cancelled yet; a deadline or a cancel call can come *)
  | Cancelled.       (* [Done()] is closed *)

#[global] Instance Context_eq_dec : EqDecision Context.
Proof. solve_decision. Defined.

(** ** The world: wall clock and calls that leave the process *)

Inductive Event : Type :=
  | EvClock (t : Z)                         (* time.Now() returned t *)
  | EvDescribeRegions                       (* ec2:DescribeRegions was called *)
  | EvCollect (service region : string)     (* collector.Collect was called *)
  | EvStderr (line : string).               (* a line written to stderr *)

Record World : Type := mkWorld {
  wall : Z;               (* wall clock, in nanoseconds *)
  log : list Event;       (* oldest first *)
}.

Record M (A : Type) : Type := mkM { runM : World → Result A * World }.
Arguments mkM {A} runM.
Arguments runM {A} m w.

#[global] Instance M_ret : MRet M := λ A a, mkM (λ w, (Ok a, w)).
#[global] Instance M_bind : MBind M := λ A B f m, mkM (λ w,
  match runM m w with
  | (Ok a, w') => runM (f a) w'
  | (Panic msg, w') => (Panic msg, w')
  | (Hang, w') => (Hang, w')
  end).

(** A computation that does not touch the world. *)
Definition liftR {A} (r : Result A) : M A := mkM (λ w, (r, w)).

(** [time.Now()] *)
Definition time_Now : M Z :=
  mkM (λ w, (Ok (wall w), mkWorld (wall w) (log w ++ [EvClock (wall w)]))).

(** [time.Since(t)] is [time.Now().Sub(t)]. *)
Definition time_Since (t : Z) : M Z :=
  now ← time_Now; mret (now - t).

(** The process spends [d] nanoseconds computing. *)
Definition elapse (d : Z) : M unit :=
  mkM (λ w, (Ok tt, mkWorld (wall w + d) (log w))).

Definition emit (e : Event) : M unit :=
  mkM (λ w, (Ok tt, mkWorld (wall w) (log w ++ [e]))).

(** ** pkg/models *)

Abbreviation error := string (only parsing).

(** The values collectors store under [Extra map[string]interface{}]. *)
Inductive Any : Type :=
  | AnyString (s : string)
  | AnyInt (n : Z)
  | AnyBool (b : bool)
  | AnyStrings (l : list string).

Module Resource.
Record t : Type := mk {
    Service : string;
    Region : string;
    ID : string;
    Name : string;
    Type_ : string;
    State : string;
    Class : string;
    CreatedAt : option Z;
    Tags : gomap string;
    Extra : gomap Any;
}.
End Resource.

Module Summary.
Record t : Type := mk {
    TotalResources : Z;
    ByService : gomap Z;
    ByRegion : gomap Z;
    ByState : gomap Z;
    Errors : Z;
    Duration : Z;
    Regions : list string;
    Services : list string;
}.
End Summary.

Module ResourceCollection.
Record t : Type := mk {
    Resources : list Resource.t;
    Errors : list string;
    Summary : Summary.t;
}.
End ResourceCollection.

Module CollectorResult.
Record t : Type := mk {
    Service : string;
    Region : string;
    Resources : list Resource.t;
    Error : option error;
}.
End CollectorResult.

(** ** pkg/aws and pkg/collectors *)

(** AWS as it answers through a client manager.  What the SDK calls
    return is not of this repository: it is a parameter of the model. *)
Record ClientManager : Type := {
  (* ec2:DescribeRegions: the [RegionName] pointers of the answer, or an error *)
  ec2_DescribeRegions : Context → list (option string) * option error;
  (* what the collector of a service returns for a region *)
  sdk_Collect : string → Context → string → list Resource.t * option error;
  (* the nanoseconds that call takes *)
  sdk_latency : string → string → Z;
}.

(** The interface [models.Collector]: what its three methods return. *)
Module Collector.
Record t : Type := mk {
  Name : string;
  Collect : Context → string → M (list Resource.t * option error);
  Regions : list string;
}.
End Collector.

(** The collector of [service]; [regions] is what its [Regions()] returns:
    [nil] for every collector but the one of S3. *)
Definition NewCollector (service : string) (regions : list string)
    (clientManager : ClientManager) : Collector.t :=
  {| Collector.Name := service;
     Collector.Collect := λ ctx region,
       emit (EvCollect service region);;
       elapse (sdk_latency clientManager service region);;
       mret (sdk_Collect clientManager service ctx region);
     Collector.Regions := regions |}.

Definition NewEC2Collector := NewCollector "ec2" [].
Definition NewRDSCollector := NewCollector "rds" [].
Definition NewLambdaCollector := NewCollector "lambda" [].
Definition NewS3Collector := NewCollector "s3" ["us-east-1"].
Definition NewDynamoDBCollector := NewCollector "dynamodb" [].
Definition NewSFNCollector := NewCollector "sfn" [].
Definition NewCloudWatchCollector := NewCollector "cloudwatch" [].
Definition NewECSCollector := NewCollector "ecs" [].
Definition NewRedisCollector := NewCollector "redis" [].
Definition NewEFSCollector := NewCollector "efs" [].

(** [ClientManager.DiscoverRegions] *)
Definition DiscoverRegions (cm : ClientManager) (ctx : Context)
    : M (list string * option error) :=
  emit EvDescribeRegions;;
  match ec2_DescribeRegions cm ctx with
  | (_, Some err) => mret ([], Some ("failed to describe regions: " +:+ err))
  | (result, None) =>
      let regions :=
        foldl (λ regions region,
                 match region with
                 | Some name => regions ++ [name]
                 | None => regions
                 end) [] result in
      mret (regions, None)
  end.

(** [ClientManager.ValidateRegions] *)
Definition ValidateRegions (cm : ClientManager) (ctx : Context)
    (regions : list string) : M (list string * option error) :=
  '(availableRegions, err) ← DiscoverRegions cm ctx;
  match err with
  | Some e => mret ([], Some e)
  | None =>
      regionMap ← liftR (for_range availableRegions
                           (λ m region, map_assign m region true) make_map);
      let '(validRegions, invalidRegions) :=
        foldl (λ '(valid, invalid) region,
                 if map_index false regionMap region
                 then (valid ++ [region], invalid)
                 else (valid, invalid ++ [region]))
              ([], []) regions in
      if 0 <? len invalidRegions
      then mret (validRegions,
                 Some ("invalid regions: " +:+ strings_Join invalidRegions ", "))
      else mret (validRegions, None)
  end.

(** ** pkg/orchestrator *)

Record Orchestrator : Type := {
  clientManager : ClientManager;
  collectors : gomap Collector.t;
}.

(** [NewOrchestrator], with [registerCollectors] in it. *)
Definition NewOrchestrator (cm : ClientManager) : Result Orchestrator :=
  m ← map_assign make_map "ec2" (NewEC2Collector cm);
  m ← map_assign m "rds" (NewRDSCollector cm);
  m ← map_assign m "lambda" (NewLambdaCollector cm);
  m ← map_assign m "s3" (NewS3Collector cm);
  m ← map_assign m "dynamodb" (NewDynamoDBCollector cm);
  m ← map_assign m "sfn" (NewSFNCollector cm);
  m ← map_assign m "cloudwatch" (NewCloudWatchCollector cm);
  m ← map_assign m "ecs" (NewECSCollector cm);
  m ← map_assign m "redis" (NewRedisCollector cm);
  m ← map_assign m "efs" (NewEFSCollector cm);
  mret {| clientManager := cm; collectors := m |}.

(** [o.collectors[service]]: [None] is the nil interface value. *)
Definition collector_of (o : Orchestrator) (service : string) : option Collector.t :=
  entries (collectors o) !! service.

(** Calling a method on an interface value panics when the value is nil. *)
Definition receiver (c : option Collector.t) : Result Collector.t :=
  match c with
  | Some collector => Ok collector
  | None => Panic "invalid memory address or nil pointer dereference"
  end.

Definition GetAvailableServices (ord : RangeOrder) (o : Orchestrator)
    : list string :=
  sort_Strings (foldl (λ services service, services ++ [service]) []
                  (range_map ord (collectors o))).

Module CollectOptions.
Record t : Type := mk {
  Services : list string;
  Regions : list string;
  Parallel : Z;
  FailFast : bool;
  Timeout : Z;
  Verbose : bool;
}.
End CollectOptions.

Definition prepareServices (ord : RangeOrder) (o : Orchestrator)
    (services : list string) : list string * option error :=
  if len services =? 0 then (GetAvailableServices ord o, None)
  else
    let '(validServices, invalidServices) :=
      foldl (λ '(valid, invalid) service,
               if bool_decide (is_Some (collector_of o service))
               then (valid ++ [service], invalid)
               else (valid, invalid ++ [service]))
            ([], []) services in
    if 0 <? len invalidServices
    then ([], Some ("invalid services: " +:+ strings_Join invalidServices ", "))
    else (validServices, None).

Definition prepareRegions (o : Orchestrator) (ctx : Context)
    (regions : list string) : M (list string * option error) :=
  if len regions =? 0 then DiscoverRegions (clientManager o) ctx
  else ValidateRegions (clientManager o) ctx regions.

Module workItem.
Record t : Type := mk {
  Service : string;
  Region : string;
}.
End workItem.

#[global] Instance workItem_eq_dec : EqDecision workItem.t.
Proof. solve_decision. Defined.

Definition createWorkItems (o : Orchestrator) (services regions : list string)
    : Result (list workItem.t) :=
  for_range services
    (λ items service,
       collector ← receiver (collector_of o service);
       let collectorRegions := Collector.Regions collector in
       if 0 <? len collectorRegions
       then for_range collectorRegions
              (λ items region, Ok (items ++ [workItem.mk service region])) items
       else for_range regions
              (λ items region, Ok (items ++ [workItem.mk service region])) items)
    [].

(** *** The executor

    [executeCollection] starts one goroutine per work item and waits for
    all of them.  Its goroutines interleave, so it is embedded as a
    transition system: [Tasks] is where every goroutine stands, an
    [Action] is one goroutine (or the owner of the context) moving on,
    and a scheduler picks, at every state, one of the actions that can
    happen. *)

Record Tasks : Type := mkTasks {
  unstarted : list workItem.t;        (* the [for] loop has not reached them *)
  blocked : list workItem.t;          (* goroutines at the [select] *)
  holding : list workItem.t;          (* goroutines holding a semaphore slot *)
  results : list CollectorResult.t;   (* the slice behind the mutex *)
  ctx : Context;
}.

Inductive Action : Type :=
  | Go                  (* the loop starts the goroutine of the next item *)
  | Acquire (i : nat)   (* [semaphore <- struct{}{}] goes through for blocked i *)
  | Leave (i : nat)     (* blocked i takes [<-ctx.Done()] and returns *)
  | Complete (i : nat)  (* holding i collects, appends its result, releases *)
  | Cancel.             (* the context is cancelled or its deadline passes *)

(** [wg.Wait()] returns: the loop is over and every goroutine is done. *)
Definition finished (s : Tasks) : bool :=
  match unstarted s, blocked s, holding s with
  | [], [], [] => true
  | _, _, _ => false
  end.

(** The actions that can happen in [s] when the semaphore has [capacity]
    slots.  A send on the channel goes through when its buffer has room;
    nothing receives from it but the release of a goroutine holding a
    slot, so with no buffer no send ever goes through. *)
Definition enabled (capacity : Z) (s : Tasks) : list Action :=
  (match unstarted s with [] => [] | _ :: _ => [Go] end)
  ++ (if len (holding s) <? capacity
      then Acquire <$> seq 0 (length (blocked s)) else [])
  ++ (if decide (ctx s = Cancelled)
      then Leave <$> seq 0 (length (blocked s)) else [])
  ++ (Complete <$> seq 0 (length (holding s)))
  ++ (if decide (ctx s = Pending) then [Cancel] else []).

(** A scheduler: which of the enabled actions happens in a state. *)
Definition Scheduler : Type := Tasks → nat.

Definition choose (pick : Scheduler) (s : Tasks) (a : Action)
    (others : list Action) : Action :=
  nth (pick s mod length (a :: others))%nat (a :: others) a.

(** What every step uses up; see [run_tasks]. *)
Definition potential (s : Tasks) : nat :=
  (3 * length (unstarted s) + 2 * length (blocked s) + length (holding s)
   + (if decide (ctx s = Pending) then 1 else 0))%nat.

Section executor.

Variable o : Orchestrator.

(** The package variable [stderr]: [None] is nil, [Some b] a value that
    has a [Write] method or (when [b] is false) has none. *)
Variable stderr : option bool.

Definition collectSingle (ctx : Context) (item : workItem.t) (verbose : bool)
    : M CollectorResult.t :=
  let collector := collector_of o (workItem.Service item) in
  (if verbose && bool_decide (stderr = Some true)
   then emit (EvStderr ("Collecting " +:+ workItem.Service item +:+
                        " resources in " +:+ workItem.Region item +:+ "..."))
   else mret tt);;
  c ← liftR (receiver collector);
  '(resources, err) ← Collector.Collect c ctx (workItem.Region item);
  mret (CollectorResult.mk (workItem.Service item) (workItem.Region item)
          resources err).

Variable opts : CollectOptions.t.

(** One action.  The body of the goroutine after the [select] is one
    step: the results are appended under the mutex, and the fail-fast
    branch that follows it is empty in the source. *)
Definition perform (a : Action) (s : Tasks) : M Tasks :=
  match a with
  | Go =>
      match unstarted s with
      | item :: rest =>
          mret (mkTasks rest (blocked s ++ [item]) (holding s) (results s) (ctx s))
      | [] => mret s
      end
  | Acquire i =>
      match blocked s !! i with
      | Some item =>
          mret (mkTasks (unstarted s) (delete i (blocked s))
                  (holding s ++ [item]) (results s) (ctx s))
      | None => mret s
      end
  | Leave i =>
      mret (mkTasks (unstarted s) (delete i (blocked s)) (holding s)
              (results s) (ctx s))
  | Complete i =>
      match holding s !! i with
      | Some item =>
          result ← collectSingle (ctx s) item (CollectOptions.Verbose opts);
          let results := results s ++ [result] in
          let _ :=
            if CollectOptions.FailFast opts
               && bool_decide (CollectorResult.Error result ≠ None)
            then tt    (* "Cancel context to stop other goroutines": no statement *)
            else tt in
          mret (mkTasks (unstarted s) (blocked s) (delete i (holding s))
                  results (ctx s))
      | None => mret s
      end
  | Cancel =>
      mret (mkTasks (unstarted s) (blocked s) (holding s) (results s) Cancelled)
  end.

Variable pick : Scheduler.

(** Runs until [wg.Wait()] returns.  When the goroutines are not done
    and nothing can happen, the call blocks for ever.  [fuel] bounds the
    number of steps; [potential] is always enough of it. *)
Fixpoint run_tasks (capacity : Z) (fuel : nat) (s : Tasks) : M Tasks :=
  if finished s then mret s
  else
    match enabled capacity s, fuel with
    | [], _ => liftR Hang
    | a :: others, S fuel' =>
        s' ← perform (choose pick s a others) s;
        run_tasks capacity fuel' s'
    | _ :: _, O => liftR (Panic "out of fuel")
    end.

Definition executeCollection (ctx : Context) (workItems : list workItem.t)
    : M (list CollectorResult.t) :=
  semaphore ← liftR (make_chan (CollectOptions.Parallel opts));
  let start := mkTasks workItems [] [] [] ctx in
  s ← run_tasks semaphore (potential start) start;
  mret (results s).

End executor.

(** *** The aggregator *)

(** The local variables of [aggregateResults] that its loop updates. *)
Record AggVars : Type := mkAgg {
  allResources : list Resource.t;
  errors : list string;
  summary : Summary.t;
  regionSet : gomap bool;
  serviceSet : gomap bool;
}.

(** [summary.Errors++] *)
Definition incr_Errors (s : Summary.t) : Summary.t :=
  Summary.mk (Summary.TotalResources s) (Summary.ByService s)
    (Summary.ByRegion s) (Summary.ByState s) (Summary.Errors s + 1)
    (Summary.Duration s) (Summary.Regions s) (Summary.Services s).

(** The summary after its three maps were written to. *)
Definition with_maps (s : Summary.t) (byService byRegion byState : gomap Z)
    : Summary.t :=
  Summary.mk (Summary.TotalResources s) byService byRegion byState
    (Summary.Errors s) (Summary.Duration s) (Summary.Regions s)
    (Summary.Services s).

(** [fmt.Sprintf("%s/%s: %v", service, region, err)] *)
Definition errorMsg (service region : string) (err : error) : string :=
  service +:+ "/" +:+ region +:+ ": " +:+ err.

(** [if resource.State != "" { summary.ByState[resource.State]++ }] *)
Definition count_state (byState : gomap Z) (resource : Resource.t)
    : Result (gomap Z) :=
  if decide (Resource.State resource = "") then Ok byState
  else map_add byState (Resource.State resource) 1.

(** The body of the loop over the results. *)
Definition fold_result (v : AggVars) (result : CollectorResult.t)
    : Result AggVars :=
  match CollectorResult.Error result with
  | Some err =>
      let msg := errorMsg (CollectorResult.Service result)
                   (CollectorResult.Region result) err in
      Ok (mkAgg (allResources v) (errors v ++ [msg])
            (incr_Errors (summary v)) (regionSet v) (serviceSet v))
  | None =>
      let resources := CollectorResult.Resources result in
      let all := allResources v ++ resources in
      byService ← map_add (Summary.ByService (summary v))
                     (CollectorResult.Service result) (len resources);
      byRegion ← map_add (Summary.ByRegion (summary v))
                    (CollectorResult.Region result) (len resources);
      regions ← map_assign (regionSet v) (CollectorResult.Region result) true;
      services ← map_assign (serviceSet v) (CollectorResult.Service result) true;
      byState ← for_range resources count_state (Summary.ByState (summary v));
      Ok (mkAgg all (errors v)
            (with_maps (summary v) byService byRegion byState)
            regions services)
  end.

(** What [aggregateResults] returns once its loop is over. *)
Definition finish (ord_regions ord_services : RangeOrder) (v : AggVars)
    : ResourceCollection.t :=
  let s := summary v in
  let regions := Summary.Regions s ++ range_map ord_regions (regionSet v) in
  let services := Summary.Services s ++ range_map ord_services (serviceSet v) in
  ResourceCollection.mk (allResources v) (errors v)
    (Summary.mk (len (allResources v)) (Summary.ByService s)
       (Summary.ByRegion s) (Summary.ByState s) (Summary.Errors s)
       (Summary.Duration s) regions services).

(** The variables [aggregateResults] declares before its loop: two nil
    slices, the summary literal with its three maps made and the duration
    already in it, and the two sets. *)
Definition new_vars (duration : Z) : AggVars :=
  mkAgg [] []
    (Summary.mk 0 make_map make_map make_map 0 duration [] [])
    make_map make_map.

Section aggregator.

(** The orders in which the two [range] loops over [regionSet] and
    [serviceSet] happen to visit their keys in this run. *)
Variables ord_regions ord_services : RangeOrder.

(** The nanoseconds one iteration of the loop takes on a result. *)
Variable fold_ns : CollectorResult.t → Z.

Definition aggregateResults (results : list CollectorResult.t)
    (startTime : Z) : M ResourceCollection.t :=
  duration ← time_Since startTime;
  v ← for_range results
        (λ v result, elapse (fold_ns result);; liftR (fold_result v result))
        (new_vars duration);
  mret (finish ord_regions ord_services v).

(** The time the whole loop takes. *)
Definition elapsed (results : list CollectorResult.t) : Z :=
  foldr (λ result ns, fold_ns result + ns) 0 results.

End aggregator.

(** [Orchestrator.Collect] *)
Definition Collect (ord ord_regions ord_services : RangeOrder)
    (fold_ns : CollectorResult.t → Z) (stderr : option bool) (pick : Scheduler)
    (o : Orchestrator) (ctx : Context) (opts : CollectOptions.t)
    : M (option ResourceCollection.t * option error) :=
  startTime ← time_Now;
  let '(services, err) := prepareServices ord o (CollectOptions.Services opts) in
  match err with
  | Some e => mret (None, Some e)
  | None =>
      '(regions, err) ← prepareRegions o ctx (CollectOptions.Regions opts);
      match err with
      | Some e => mret (None, Some e)
      | None =>
          workItems ← liftR (createWorkItems o services regions);
          results ← executeCollection o stderr opts pick ctx workItems;
          collection ← aggregateResults ord_regions ord_services fold_ns
                         results startTime;
          mret (Some collection, None)
      end
  end.

(** ** Vocabulary of the statements *)

(** Two views of a list of results, used to state what the aggregator
    returns: the resources of the results without an error, in order, and
    the messages of the results with an error, in order. *)
Definition merged (results : list CollectorResult.t) : list Resource.t :=
  result ← results;
  match CollectorResult.Error result with
  | Some _ => []
  | None => CollectorResult.Resources result
  end.

Definition failures (results : list CollectorResult.t) : list string :=
  result ← results;
  match CollectorResult.Error result with
  | Some err => [errorMsg (CollectorResult.Service result)
                   (CollectorResult.Region result) err]
  | None => []
  end.

Definition has_state (resource : Resource.t) : bool :=
  bool_decide (Resource.State resource ≠ "").

(** No map of the loop variables is nil. *)
Definition maps_made (v : AggVars) : Prop :=
  is_nil (Summary.ByService (summary v)) = false ∧
  is_nil (Summary.ByRegion (summary v)) = false ∧
  is_nil (Summary.ByState (summary v)) = false ∧
  is_nil (regionSet v) = false ∧
  is_nil (serviceSet v) = false.

(** Two values of the loop variables that differ at most in the error
    list, the error count and the duration. *)
Definition same_data (v1 v2 : AggVars) : Prop :=
  allResources v1 = allResources v2 ∧
  regionSet v1 = regionSet v2 ∧
  serviceSet v1 = serviceSet v2 ∧
  Summary.TotalResources (summary v1) = Summary.TotalResources (summary v2) ∧
  Summary.ByService (summary v1) = Summary.ByService (summary v2) ∧
  Summary.ByRegion (summary v1) = Summary.ByRegion (summary v2) ∧
  Summary.ByState (summary v1) = Summary.ByState (summary v2) ∧
  Summary.Regions (summary v1) = Summary.Regions (summary v2) ∧
  Summary.Services (summary v1) = Summary.Services (summary v2).

(** [folded v results v']: what the loop variables [v'] are once the loop
    has run over [results] from [v]. *)
Definition folded (v : AggVars) (results : list CollectorResult.t)
    (v' : AggVars) : Prop :=
  maps_made v' ∧
  allResources v' = allResources v ++ merged results ∧
  errors v' = errors v ++ failures results ∧
  Summary.Errors (summary v')
    = Summary.Errors (summary v) + len (failures results) ∧
  sum_values (Summary.ByService (summary v'))
    = sum_values (Summary.ByService (summary v)) + len (merged results) ∧
  sum_values (Summary.ByRegion (summary v'))
    = sum_values (Summary.ByRegion (summary v)) + len (merged results) ∧
  sum_values (Summary.ByState (summary v'))
    = sum_values (Summary.ByState (summary v))
      + len (filter (λ r, has_state r = true) (merged results)) ∧
  Summary.TotalResources (summary v') = Summary.TotalResources (summary v) ∧
  Summary.Duration (summary v') = Summary.Duration (summary v) ∧
  Summary.Regions (summary v') = Summary.Regions (summary v) ∧
  Summary.Services (summary v') = Summary.Services (summary v).

(** The regions the builder uses for a service: the list its collector
    declares when that list is not empty, the selected regions otherwise. *)
Definition regions_for (o : Orchestrator) (regions : list string)
    (service : string) : list string :=
  match collector_of o service with
  | Some c => if decide (Collector.Regions c = []) then regions else Collector.Regions c
  | None => []
  end.

(** The requested services without a collector, in the order of the request. *)
Definition unknown_services (o : Orchestrator) (services : list string)
    : list string :=
  filter (λ service, collector_of o service = None) services.

(** The region names in an answer of ec2:DescribeRegions. *)
Definition region_names (answer : list (option string)) : list string :=
  omap id answer.

(** The service of a work item has a collector. *)
Definition registered (o : Orchestrator) (item : workItem.t) : Prop :=
  is_Some (collector_of o (workItem.Service item)).

(** Every registered collector answers: its [Collect] returns, with
    resources or with an error. *)
Definition collectors_return (o : Orchestrator) : Prop :=
  ∀ service c ctx region w,
    collector_of o service = Some c →
    ∃ r w', runM (Collector.Collect c ctx region) w = (Ok r, w').

(** The goroutines that are not done. *)
Definition outstanding (s : Tasks) : nat :=
  (length (unstarted s) + length (blocked s) + length (holding s))%nat.

(** Every goroutine that is not done works on a registered service. *)
Definition all_registered (o : Orchestrator) (s : Tasks) : Prop :=
  Forall (registered o) (unstarted s) ∧
  Forall (registered o) (blocked s) ∧
  Forall (registered o) (holding s).

(** ** Sample runs *)

Definition sample_resource (service region id state : string) : Resource.t :=
  Resource.mk service region id "" "" state "" None nil_map nil_map.

(** An account where every call to EC2 is denied, and every other
    service has one resource per region. *)
Definition denied_ec2 : ClientManager :=
  {| ec2_DescribeRegions := λ _, ([], Some "AccessDenied");
     sdk_Collect := λ service _ region,
       if bool_decide (service = "ec2") then ([], Some "AccessDenied")
       else ([sample_resource service region "r-1" "active"], None);
     sdk_latency := λ _ _, 1000 |}.

Definition sample_options (parallel : Z) (failFast : bool) : CollectOptions.t :=
  CollectOptions.mk [] [] parallel failFast 300000000000 false.

(** A resource whose collector left [State] empty. *)
Definition blank_resource : Resource.t :=
  sample_resource "ec2" "us-east-1" "i-0" "".

(** An account with two enabled regions; one entry of the answer has no
    [RegionName]. *)
Definition two_regions : ClientManager :=
  {| ec2_DescribeRegions := λ _, ([Some "us-east-1"; None; Some "eu-west-1"], None);
     sdk_Collect := λ service _ region,
       ([sample_resource service region "r-1" "active"], None);
     sdk_latency := λ _ _, 1000 |}.

(** ** Further vocabulary *)

(** The results filed under a key: those of a service, or of a region. *)
Definition of_service (k : string) (results : list CollectorResult.t)
    : list CollectorResult.t :=
  filter (λ r, CollectorResult.Service r = k) results.

Definition of_region (k : string) (results : list CollectorResult.t)
    : list CollectorResult.t :=
  filter (λ r, CollectorResult.Region r = k) results.

(** The resources in a given state. *)
Definition in_state (k : string) (resources : list Resource.t)
    : list Resource.t :=
  filter (λ x, Resource.State x = k) resources.

(** A result without an error whose service, or region, is the key. *)
Definition succeeded_with (key : CollectorResult.t → string) (k : string)
    (results : list CollectorResult.t) : Prop :=
  ∃ r, r ∈ results ∧ CollectorResult.Error r = None ∧ key r = k.

(** The results without an error, in order. *)
Definition without_error (results : list CollectorResult.t)
    : list CollectorResult.t :=
  filter (λ r, CollectorResult.Error r = None) results.

(** [tallied v results v']: entry by entry, what the maps of the loop
    variables [v'] hold once the loop has run over [results] from [v]. *)
Definition tallied (v : AggVars) (results : list CollectorResult.t)
    (v' : AggVars) : Prop :=
  (∀ k, map_index 0 (Summary.ByService (summary v')) k
        = map_index 0 (Summary.ByService (summary v)) k
          + len (merged (of_service k results))) ∧
  (∀ k, is_Some (entries (Summary.ByService (summary v')) !! k)
        ↔ is_Some (entries (Summary.ByService (summary v)) !! k)
          ∨ succeeded_with CollectorResult.Service k results) ∧
  (∀ k, map_index 0 (Summary.ByRegion (summary v')) k
        = map_index 0 (Summary.ByRegion (summary v)) k
          + len (merged (of_region k results))) ∧
  (∀ k, is_Some (entries (Summary.ByRegion (summary v')) !! k)
        ↔ is_Some (entries (Summary.ByRegion (summary v)) !! k)
          ∨ succeeded_with CollectorResult.Region k results) ∧
  (∀ k, map_index 0 (Summary.ByState (summary v')) k
        = map_index 0 (Summary.ByState (summary v)) k
          + (if decide (k = "") then 0
             else len (in_state k (merged results)))) ∧
  (∀ k, is_Some (entries (Summary.ByState (summary v')) !! k)
        ↔ is_Some (entries (Summary.ByState (summary v)) !! k)
          ∨ (k ≠ "" ∧ in_state k (merged results) ≠ [])) ∧
  (∀ k, is_Some (entries (regionSet v') !! k)
        ↔ is_Some (entries (regionSet v) !! k)
          ∨ succeeded_with CollectorResult.Region k results) ∧
  (∀ k, is_Some (entries (serviceSet v') !! k)
        ↔ is_Some (entries (serviceSet v) !! k)
          ∨ succeeded_with CollectorResult.Service k results).

(** The work item a result answers. *)
Definition item_of (r : CollectorResult.t) : workItem.t :=
  workItem.mk (CollectorResult.Service r) (CollectorResult.Region r).

(** One step of the executor: an action that can happen, happens. *)
Inductive step (o : Orchestrator) (stderr : option bool)
    (opts : CollectOptions.t) (capacity : Z)
    : Tasks * World → Tasks * World → Prop :=
  | step_perform a s w s' w' :
      a ∈ enabled capacity s →
      runM (perform o stderr opts a s) w = (Ok s', w') →
      step o stderr opts capacity (s, w) (s', w').

(** The goroutines of a state, done or not, by work item. *)
Definition accounted (s : Tasks) : list workItem.t :=
  unstarted s ++ blocked s ++ holding s ++ (item_of <$> results s).

(** Two schedulers that pick alike in every state where at most
    [capacity] goroutines hold a slot. *)
Definition same_choices (capacity : Z) (pick pick' : Scheduler) : Prop :=
  ∀ s, len (holding s) ≤ capacity → pick' s = pick s.

(** The order of [sort.Strings]: byte-wise lexicographic. *)
Definition string_le (a b : string) : Prop := String.leb a b = true.

(** ** pkg/collectors: the S3 collector *)

(** [types.Bucket] of the SDK, with the two fields the collector reads. *)
Module Bucket.
Record t : Type := mk {
  Name : option string;          (* *string *)
  CreationDate : option Z;       (* *time.Time *)
}.
End Bucket.

(** [aws.ToString]: the string a pointer points to, or [""] for nil. *)
Definition aws_ToString (p : option string) : string := default "" p.

(** [resource.CreatedAt = &createdAt] *)
Definition set_CreatedAt (x : Resource.t) (t : option Z) : Resource.t :=
  Resource.mk (Resource.Service x) (Resource.Region x) (Resource.ID x)
    (Resource.Name x) (Resource.Type_ x) (Resource.State x) (Resource.Class x)
    t (Resource.Tags x) (Resource.Extra x).

(** [resource.Extra = extra] *)
Definition set_Extra (x : Resource.t) (extra : gomap Any) : Resource.t :=
  Resource.mk (Resource.Service x) (Resource.Region x) (Resource.ID x)
    (Resource.Name x) (Resource.Type_ x) (Resource.State x) (Resource.Class x)
    (Resource.CreatedAt x) (Resource.Tags x) extra.

(** [S3Collector.convertBucket] *)
Definition convertBucket (bucket : Bucket.t) : Result Resource.t :=
  let resource :=
    Resource.mk "s3" "global" (aws_ToString (Bucket.Name bucket))
      (aws_ToString (Bucket.Name bucket)) "bucket" "active" "" None
      nil_map nil_map in
  let resource :=
    match Bucket.CreationDate bucket with
    | Some createdAt => set_CreatedAt resource (Some createdAt)
    | None => resource
    end in
  let extra := make_map in
  extra ← match Bucket.Name bucket with
           | Some _ =>
               map_assign extra "bucketName"
                 (AnyString (aws_ToString (Bucket.Name bucket)))
           | None => Ok extra
           end;
  Ok (set_Extra resource extra).

(** [S3Collector.Collect]; [s3_ListBuckets] is what the ListBuckets call
    of the SDK answers: the buckets, or an error. *)
Definition S3Collector_Collect
    (s3_ListBuckets : Context → list Bucket.t * option error)
    (ctx : Context) (region : string) : Result (list Resource.t * option error) :=
  match s3_ListBuckets ctx with
  | (_, Some err) => Ok ([], Some ("failed to list buckets: " +:+ err))
  | (buckets, None) =>
      resources ← for_range buckets
                     (λ resources bucket,
                        resource ← convertBucket bucket;
                        Ok (resources ++ [resource]))
                     [];
      Ok (resources, None)
  end.

(** What a resource made from a bucket is. *)
Definition of_bucket (bucket : Bucket.t) (x : Resource.t) : Prop :=
  Resource.Service x = "s3" ∧
  Resource.Region x = "global" ∧
  Resource.ID x = default "" (Bucket.Name bucket) ∧
  Resource.Name x = default "" (Bucket.Name bucket) ∧
  Resource.Type_ x = "bucket" ∧
  Resource.State x = "active" ∧
  Resource.Class x = "" ∧
  Resource.CreatedAt x = Bucket.CreationDate bucket ∧
  Resource.Tags x = nil_map ∧
  Resource.Extra x
  = made (match Bucket.Name bucket with
          | Some name => {["bucketName" := AnyString name]}
          | None => ∅
          end).

(** An account with three buckets, one of them without a name. *)
Definition three_buckets (ctx : Context) : list Bucket.t * option error :=
  ([Bucket.mk (Some "logs") (Some 1700000000);
    Bucket.mk None None;
    Bucket.mk (Some "assets") None], None).

(** * Properties of the embedding *)

(** ** Go maps *)

Lemma sum_values_made_insert (g : gmap string Z) (k : string) (n : Z) :
  sum_values (made (<[k := default 0 (g !! k) + n]> g)) = sum_values (made g) + n.
Proof.
  unfold sum_values; simpl.
  destruct (g !! k) as [x|] eqn:Hk; simpl.
  - rewrite <- insert_delete_eq.
    rewrite map_fold_insert_L; [|intros; lia|apply lookup_delete_eq].
    rewrite (map_fold_delete_L _ _ k x g); [lia|intros; lia|done].
  - rewrite map_fold_insert_L; [lia|intros; lia|done].
Qed.

Lemma map_add_made (g : gmap string Z) (k : string) (n : Z) :
  map_add (made g) k n = Ok (made (<[k := default 0 (g !! k) + n]> g)).
Proof. reflexivity. Qed.

Lemma not_nil_made {V} (m : gomap V) : is_nil m = false → ∃ g, m = made g.
Proof. destruct m; [discriminate|eauto]. Qed.

Lemma for_range_app {A S} (l1 l2 : list A) (body : S → A → Result S) (s : S) :
  for_range (l1 ++ l2) body s = s' ← for_range l1 body s; for_range l2 body s'.
Proof.
  revert s. induction l1 as [|x l1 IH]; intros s; simpl; [done|].
  destruct (body s x); simpl; auto.
Qed.

Lemma len_app {A} (l1 l2 : list A) : len (l1 ++ l2) = len l1 + len l2.
Proof. unfold len. rewrite length_app. lia. Qed.

Lemma len_nil A : len (@nil A) = 0.
Proof. reflexivity. Qed.

Lemma len_cons {A} (x : A) l : len (x :: l) = 1 + len l.
Proof. unfold len. simpl length. lia. Qed.

(** ** The aggregator's loop *)

Lemma count_state_blank m r : Resource.State r = "" → count_state m r = Ok m.
Proof. intros He. unfold count_state. by rewrite decide_True. Qed.

Lemma count_state_made g r :
  Resource.State r ≠ "" →
  count_state (made g) r
  = Ok (made (<[Resource.State r := default 0 (g !! Resource.State r) + 1]> g)).
Proof. intros Hne. unfold count_state. by rewrite decide_False. Qed.

Lemma has_state_true r : has_state r = true ↔ Resource.State r ≠ "".
Proof. unfold has_state. apply bool_decide_eq_true. Qed.

Lemma count_states_made (resources : list Resource.t) (g : gmap string Z) :
  ∃ g', for_range resources count_state (made g) = Ok (made g') ∧
        sum_values (made g')
        = sum_values (made g) + len (filter (λ r, has_state r = true) resources).
Proof.
  revert g. induction resources as [|r rs IH]; intros g.
  - exists g. split; [done|]. rewrite filter_nil, len_nil. lia.
  - cbn [for_range]. destruct (decide (Resource.State r = "")) as [He|Hne].
    + rewrite count_state_blank by done.
      destruct (IH g) as (g' & Hg' & Hsum). exists g'. split; [done|].
      rewrite Hsum. rewrite filter_cons_False; [done|].
      rewrite has_state_true. tauto.
    + rewrite count_state_made by done.
      destruct (IH (<[Resource.State r := default 0 (g !! Resource.State r) + 1]> g))
        as (g' & Hg' & Hsum).
      exists g'. split; [done|]. rewrite Hsum, sum_values_made_insert.
      rewrite filter_cons_True; [rewrite len_cons; lia|].
      by rewrite has_state_true.
Qed.

Lemma merged_cons r l : merged (r :: l) = merged [r] ++ merged l.
Proof. unfold merged. simpl. by rewrite app_nil_r. Qed.

Lemma failures_cons r l : failures (r :: l) = failures [r] ++ failures l.
Proof. unfold failures. simpl. by rewrite app_nil_r. Qed.

Lemma merged_app l1 l2 : merged (l1 ++ l2) = merged l1 ++ merged l2.
Proof. unfold merged. apply bind_app. Qed.

Lemma failures_app l1 l2 : failures (l1 ++ l2) = failures l1 ++ failures l2.
Proof. unfold failures. apply bind_app. Qed.

Lemma folded_refl v : maps_made v → folded v [] v.
Proof.
  intros Hv. unfold folded. simpl. rewrite !app_nil_r, !len_nil.
  split; [done|]. split_and!; try done; lia.
Qed.

Lemma folded_trans v1 v2 v3 r l :
  folded v1 [r] v2 → folded v2 l v3 → folded v1 (r :: l) v3.
Proof.
  unfold folded. rewrite (merged_cons r l), (failures_cons r l).
  rewrite !filter_app, !len_app.
  intros (_ & Ha & Hb & Hc & Hd & He & Hf & Hg & Hh & Hi & Hj)
         (Hm & Ha' & Hb' & Hc' & Hd' & He' & Hf' & Hg' & Hh' & Hi' & Hj').
  rewrite Ha', Hb', Hc', Hd', He', Hf', Hg', Hh', Hi', Hj'.
  rewrite Ha, Hb, Hc, Hd, He, Hf, Hg, Hh, Hi, Hj.
  rewrite !app_assoc. split; [done|]. split_and!; try done; lia.
Qed.

Lemma fold_result_folded v result :
  maps_made v → ∃ v', fold_result v result = Ok v' ∧ folded v [result] v'.
Proof.
  destruct v as [all errs [tot bs br bst n d rgs svs] rset sset].
  intros (H1 & H2 & H3 & H4 & H5); simpl in *.
  apply not_nil_made in H1 as [gs ->], H2 as [gr ->], H3 as [gst ->],
    H4 as [grs ->], H5 as [gss ->].
  destruct result as [svc reg resources [err|]]; unfold fold_result; simpl.
  - eexists. split; [reflexivity|]. unfold folded, maps_made, merged, failures; simpl.
    rewrite !app_nil_r, filter_nil, len_cons, !len_nil. split_and!; try done; lia.
  - destruct (count_states_made resources gst) as (g' & -> & Hsum). simpl.
    eexists. split; [reflexivity|]. unfold folded, maps_made, merged, failures; simpl.
    rewrite !app_nil_r, len_nil. rewrite !sum_values_made_insert, Hsum.
    split_and!; try done; lia.
Qed.

Lemma fold_results_folded results v :
  maps_made v →
  ∃ v', for_range results fold_result v = Ok v' ∧ folded v results v'.
Proof.
  revert v. induction results as [|r l IH]; intros v Hv; simpl.
  - exists v. split; [done|]. by apply folded_refl.
  - destruct (fold_result_folded v r Hv) as (v1 & -> & H1). simpl.
    destruct (IH v1) as (v' & Hv' & H2); [apply H1|].
    exists v'. split; [done|]. eapply folded_trans; eauto.
Qed.

Lemma fold_result_same v1 v2 v1' result :
  same_data v1 v2 → fold_result v1 result = Ok v1' →
  ∃ v2', fold_result v2 result = Ok v2' ∧ same_data v1' v2'.
Proof.
  destruct v1 as [all1 errs1 [tot1 bs1 br1 bst1 n1 d1 rgs1 svs1] rset1 sset1].
  destruct v2 as [all2 errs2 [tot2 bs2 br2 bst2 n2 d2 rgs2 svs2] rset2 sset2].
  unfold same_data; simpl. intros Hsame; destruct_and!; subst.
  unfold fold_result; simpl.
  destruct (CollectorResult.Error result) as [err|].
  - intros [= <-]. eexists. split; [reflexivity|]. by simpl.
  - destruct (map_add bs2 _ _); simpl; [|done..].
    destruct (map_add br2 _ _); simpl; [|done..].
    destruct (map_assign rset2 _ _); simpl; [|done..].
    destruct (map_assign sset2 _ _); simpl; [|done..].
    destruct (for_range _ count_state bst2); simpl; [|done..].
    intros [= <-]. eexists. split; [reflexivity|]. by simpl.
Qed.

Lemma fold_results_same results v1 v2 v1' :
  same_data v1 v2 → for_range results fold_result v1 = Ok v1' →
  ∃ v2', for_range results fold_result v2 = Ok v2' ∧ same_data v1' v2'.
Proof.
  revert v1 v2. induction results as [|r l IH]; intros v1 v2 Hsame; simpl.
  - intros [= <-]. eauto.
  - destruct (fold_result v1 r) as [u1| |] eqn:H1; simpl; [|done..].
    destruct (fold_result_same _ _ _ _ Hsame H1) as (u2 & -> & Hu). simpl.
    by apply IH.
Qed.

Lemma fold_result_failed v result err :
  CollectorResult.Error result = Some err →
  ∃ v', fold_result v result = Ok v' ∧ same_data v' v ∧
    errors v' = errors v ++ [errorMsg (CollectorResult.Service result)
                               (CollectorResult.Region result) err] ∧
    Summary.Errors (summary v') = Summary.Errors (summary v) + 1.
Proof.
  intros He. unfold fold_result. rewrite He. eexists. split; [reflexivity|].
  by unfold same_data.
Qed.

Lemma same_data_trans v1 v2 v3 : same_data v1 v2 → same_data v2 v3 → same_data v1 v3.
Proof.
  unfold same_data. intros ? ?; destruct_and!. split_and!; congruence.
Qed.

Lemma fold_results_all_failed results v v' :
  Forall (λ r, is_Some (CollectorResult.Error r)) results →
  for_range results fold_result v = Ok v' → same_data v' v.
Proof.
  intros Hall. revert v. induction Hall as [|r l [err He] _ IH]; intros v; simpl.
  - intros [= <-]. by unfold same_data.
  - destruct (fold_result_failed v r err He) as (u & -> & Hu & _). simpl.
    intros Hl. eapply same_data_trans; eauto.
Qed.

Lemma range_map_perm {V} (ord ord' : RangeOrder) (m : gomap V) :
  range_map ord m ≡ₚ range_map ord' m.
Proof.
  destruct m as [|g]; simpl; [done|].
  by rewrite (range_keys_perm ord), (range_keys_perm ord').
Qed.

Lemma maps_made_new_vars d : maps_made (new_vars d).
Proof. by unfold maps_made. Qed.

(** ** The aggregator in the world *)

Section aggregator_run.

Variables ord_regions ord_services : RangeOrder.
Variable fold_ns : CollectorResult.t → Z.

Lemma run_loop results v v' w :
  for_range results fold_result v = Ok v' →
  runM (for_range results
          (λ v result, elapse (fold_ns result);; liftR (fold_result v result)) v) w
  = (Ok v', mkWorld (wall w + elapsed fold_ns results) (log w)).
Proof.
  revert v w. induction results as [|r l IH]; intros v w; simpl.
  - intros [= <-]. destruct w; simpl. do 2 f_equal. lia.
  - destruct (fold_result v r) as [u| |] eqn:Hr; simpl; [|done..].
    intros Hl. rewrite (IH _ _ Hl). simpl. do 2 f_equal. lia.
Qed.

Lemma aggregateResults_run results startTime w :
  ∃ v, for_range results fold_result (new_vars (wall w - startTime)) = Ok v ∧
       folded (new_vars (wall w - startTime)) results v ∧
       runM (aggregateResults ord_regions ord_services fold_ns results startTime) w
       = (Ok (finish ord_regions ord_services v),
          mkWorld (wall w + elapsed fold_ns results) (log w ++ [EvClock (wall w)])).
Proof.
  destruct (fold_results_folded results (new_vars (wall w - startTime)))
    as (v & Hv & Hf); [apply maps_made_new_vars|].
  exists v. split; [done|]. split; [done|].
  unfold aggregateResults. simpl. rewrite (run_loop _ _ _ _ Hv). by simpl.
Qed.

End aggregator_run.

(** ** The maps of the aggregator, entry by entry *)

Lemma lookup_add (g : gmap string Z) (k k' : string) (n : Z) :
  default 0 (<[k := default 0 (g !! k) + n]> g !! k')
  = default 0 (g !! k') + (if decide (k = k') then n else 0).
Proof.
  destruct (decide (k = k')) as [->|Hne].
  - by rewrite lookup_insert_eq.
  - rewrite lookup_insert_ne by done. lia.
Qed.

Lemma is_Some_insert {V} (g : gmap string V) (k k' : string) (x : V) :
  is_Some (<[k := x]> g !! k') ↔ is_Some (g !! k') ∨ k = k'.
Proof.
  destruct (decide (k = k')) as [->|Hne].
  - rewrite lookup_insert_eq. split; [by right|by eauto].
  - rewrite lookup_insert_ne by done. tauto.
Qed.

Lemma count_states_lookup (resources : list Resource.t) (g : gmap string Z) :
  ∃ g', for_range resources count_state (made g) = Ok (made g') ∧
    (∀ k, default 0 (g' !! k)
          = default 0 (g !! k)
            + (if decide (k = "") then 0 else len (in_state k resources))) ∧
    (∀ k, is_Some (g' !! k)
          ↔ is_Some (g !! k) ∨ (k ≠ "" ∧ in_state k resources ≠ [])).
Proof.
  unfold in_state. revert g. induction resources as [|r rs IH]; intros g.
  - exists g. split; [done|]. split; intros k.
    + rewrite filter_nil, len_nil. case_decide; lia.
    + rewrite filter_nil. tauto.
  - cbn [for_range]. destruct (decide (Resource.State r = "")) as [He|Hne].
    + rewrite count_state_blank by done.
      destruct (IH g) as (g' & Hg' & Hval & Hkey). exists g'. split; [done|].
      split; intros k.
      * rewrite Hval. case_decide; [done|].
        rewrite filter_cons_False by congruence. done.
      * rewrite Hkey. destruct (decide (k = "")) as [->|Hk]; [tauto|].
        rewrite filter_cons_False by congruence. done.
    + rewrite count_state_made by done.
      destruct (IH (<[Resource.State r := default 0 (g !! Resource.State r) + 1]> g))
        as (g' & Hg' & Hval & Hkey).
      exists g'. split; [done|]. split; intros k.
      * rewrite Hval, lookup_add.
        destruct (decide (Resource.State r = k)) as [Heq|Hrk].
        -- rewrite filter_cons_True by done. rewrite len_cons.
           case_decide; [congruence|lia].
        -- rewrite filter_cons_False by done. case_decide; lia.
      * rewrite Hkey, is_Some_insert.
        destruct (decide (Resource.State r = k)) as [Heq|Hrk].
        -- rewrite filter_cons_True by done. split; [|tauto].
           intros _. right. split; [congruence|done].
        -- rewrite filter_cons_False by done. tauto.
Qed.

Lemma of_service_cons k r l : of_service k (r :: l) = of_service k [r] ++ of_service k l.
Proof. unfold of_service. by rewrite <- filter_app. Qed.

Lemma of_region_cons k r l : of_region k (r :: l) = of_region k [r] ++ of_region k l.
Proof. unfold of_region. by rewrite <- filter_app. Qed.

Lemma succeeded_with_cons key k r l :
  succeeded_with key k (r :: l)
  ↔ succeeded_with key k [r] ∨ succeeded_with key k l.
Proof.
  unfold succeeded_with. split.
  - intros (x & Hx & He & Hk). apply elem_of_cons in Hx as [->|Hx].
    + left. exists r. split; [left|done].
    + right. by exists x.
  - intros [(x & Hx & He & Hk)|(x & Hx & He & Hk)].
    + apply list_elem_of_singleton in Hx as ->. exists r. split; [left|done].
    + exists x. split; [by right|done].
Qed.

Lemma succeeded_with_nil key k : ¬ succeeded_with key k [].
Proof. intros (x & Hx & _). by apply elem_of_nil in Hx. Qed.

Lemma app_not_nil {A} (l1 l2 : list A) : l1 ++ l2 ≠ [] ↔ l1 ≠ [] ∨ l2 ≠ [].
Proof. destruct l1, l2; simpl; split; (tauto || (intros; (by left) || (by right)) || done). Qed.

Lemma tallied_refl v : tallied v [] v.
Proof.
  assert (Hnone : ∀ key k P, P ↔ P ∨ succeeded_with key k []).
  { intros key k P. pose proof (succeeded_with_nil key k). tauto. }
  unfold tallied, of_service, of_region, in_state.
  change (merged []) with (@nil Resource.t).
  split_and!; intros k; rewrite ?filter_nil, ?len_nil.
  - lia.
  - apply Hnone.
  - lia.
  - apply Hnone.
  - case_decide; lia.
  - tauto.
  - apply Hnone.
  - apply Hnone.
Qed.

Lemma tallied_trans v1 v2 v3 r l :
  tallied v1 [r] v2 → tallied v2 l v3 → tallied v1 (r :: l) v3.
Proof.
  unfold tallied.
  intros (Ha & Hb & Hc & Hd & He & Hf & Hg & Hh)
         (Ha' & Hb' & Hc' & Hd' & He' & Hf' & Hg' & Hh').
  split_and!; intros k.
  - rewrite (of_service_cons k r l), merged_app, len_app, Ha', Ha. lia.
  - rewrite (succeeded_with_cons _ k r l), Hb', Hb. tauto.
  - rewrite (of_region_cons k r l), merged_app, len_app, Hc', Hc. lia.
  - rewrite (succeeded_with_cons _ k r l), Hd', Hd. tauto.
  - rewrite (merged_cons r l), He', He. unfold in_state.
    rewrite filter_app, len_app. case_decide; lia.
  - rewrite (merged_cons r l), Hf', Hf. unfold in_state.
    rewrite filter_app, app_not_nil. tauto.
  - rewrite (succeeded_with_cons _ k r l), Hg', Hg. tauto.
  - rewrite (succeeded_with_cons _ k r l), Hh', Hh. tauto.
Qed.

Lemma succeeded_with_singleton key k r :
  succeeded_with key k [r] ↔ CollectorResult.Error r = None ∧ key r = k.
Proof.
  unfold succeeded_with. split.
  - intros (x & Hx & He & Hk). by apply list_elem_of_singleton in Hx as ->.
  - intros [He Hk]. exists r. split; [left|done].
Qed.

Lemma merged_singleton r :
  merged [r] = match CollectorResult.Error r with
               | Some _ => []
               | None => CollectorResult.Resources r
               end.
Proof. unfold merged. simpl. by rewrite app_nil_r. Qed.

Lemma merged_filter_singleton (P : CollectorResult.t → Prop)
    `{∀ r, Decision (P r)} r :
  merged (filter P [r])
  = if decide (P r) then merged [r] else [].
Proof.
  destruct (decide (P r)).
  - by rewrite filter_cons_True.
  - by rewrite filter_cons_False.
Qed.

Lemma fold_result_tallied v result :
  maps_made v → ∃ v', fold_result v result = Ok v' ∧ tallied v [result] v'.
Proof.
  destruct v as [all errs [tot bs br bst n d rgs svs] rset sset].
  intros (H1 & H2 & H3 & H4 & H5); simpl in *.
  apply not_nil_made in H1 as [gs ->], H2 as [gr ->], H3 as [gst ->],
    H4 as [grs ->], H5 as [gss ->].
  destruct result as [svc reg resources [err|]]; unfold fold_result; simpl.
  - eexists. split; [reflexivity|].
    unfold tallied, of_service, of_region; simpl.
    split_and!; intros k;
      rewrite ?merged_filter_singleton, ?merged_singleton,
        ?succeeded_with_singleton; simpl.
    + case_decide; rewrite len_nil; lia.
    + split; [tauto|]. intros [?|[? _]]; done.
    + case_decide; rewrite len_nil; lia.
    + split; [tauto|]. intros [?|[? _]]; done.
    + unfold in_state. rewrite filter_nil, len_nil. case_decide; lia.
    + unfold in_state. rewrite filter_nil. tauto.
    + split; [tauto|]. intros [?|[? _]]; done.
    + split; [tauto|]. intros [?|[? _]]; done.
  - destruct (count_states_lookup resources gst) as (g' & -> & Hval & Hkey). simpl.
    eexists. split; [reflexivity|].
    unfold tallied, of_service, of_region; simpl.
    split_and!; intros k;
      rewrite ?merged_filter_singleton, ?merged_singleton,
        ?succeeded_with_singleton; simpl.
    + rewrite lookup_add. case_decide; rewrite ?len_nil; lia.
    + rewrite is_Some_insert. tauto.
    + rewrite lookup_add. case_decide; rewrite ?len_nil; lia.
    + rewrite is_Some_insert. tauto.
    + rewrite ?app_nil_r. apply Hval.
    + rewrite ?app_nil_r. apply Hkey.
    + rewrite is_Some_insert. tauto.
    + rewrite is_Some_insert. tauto.
Qed.

Lemma fold_results_tallied results v v' :
  maps_made v → for_range results fold_result v = Ok v' → tallied v results v'.
Proof.
  revert v. induction results as [|r l IH]; intros v Hv; simpl.
  - intros [= <-]. apply tallied_refl.
  - destruct (fold_result_tallied v r Hv) as (v1 & Hr & H1).
    destruct (fold_result_folded v r Hv) as (v1' & Hr' & Hmade & _).
    rewrite Hr in Hr'. injection Hr' as <-. rewrite Hr. simpl.
    intros Hl. eapply tallied_trans; eauto.
Qed.

Section aggregator_entries.

Variables ord_regions ord_services : RangeOrder.
Variable fold_ns : CollectorResult.t → Z.

(** What the report holds entry by entry. *)
Lemma aggregateResults_tallied results startTime w :
  ∃ v, runM (aggregateResults ord_regions ord_services fold_ns results startTime) w
       = (Ok (finish ord_regions ord_services v),
          mkWorld (wall w + elapsed fold_ns results) (log w ++ [EvClock (wall w)])) ∧
       maps_made v ∧
       folded (new_vars (wall w - startTime)) results v ∧
       tallied (new_vars (wall w - startTime)) results v.
Proof.
  destruct (aggregateResults_run ord_regions ord_services fold_ns results startTime w)
    as (v & Hv & Hf & Hrun).
  exists v. split_and!; [done|apply Hf|done|].
  apply fold_results_tallied; [apply maps_made_new_vars|done].
Qed.

End aggregator_entries.

Lemma range_map_elem_of {V} (ord : RangeOrder) (m : gomap V) (k : string) :
  k ∈ range_map ord m ↔ is_Some (entries m !! k).
Proof.
  destruct m as [|g]; simpl.
  - rewrite elem_of_nil, lookup_empty. split; [done|by intros [? ?]].
  - rewrite (range_keys_perm ord), list_elem_of_fmap. split.
    + intros ([k' x] & -> & Hx). apply elem_of_map_to_list in Hx. by eexists.
    + intros [x Hx]. exists (k, x). split; [done|]. by apply elem_of_map_to_list.
Qed.

Lemma range_map_NoDup {V} (ord : RangeOrder) (m : gomap V) : NoDup (range_map ord m).
Proof.
  destruct m as [|g]; simpl; [constructor|].
  rewrite (range_keys_perm ord). apply NoDup_fst_map_to_list.
Qed.

Lemma option_eq_by_default (a b : option Z) :
  (is_Some a ↔ is_Some b) → default 0 a = default 0 b → a = b.
Proof.
  destruct a, b; simpl; intros H ?; try congruence.
  - destruct H as [H _]. by destruct H.
  - destruct H as [_ H]. by destruct H.
Qed.

Lemma succeeded_with_perm key k l1 l2 :
  l1 ≡ₚ l2 → succeeded_with key k l1 ↔ succeeded_with key k l2.
Proof.
  intros Hp. unfold succeeded_with. split; intros (r & Hr & H); exists r.
  - by rewrite <- Hp.
  - by rewrite Hp.
Qed.

Lemma merged_perm l1 l2 : l1 ≡ₚ l2 → merged l1 ≡ₚ merged l2.
Proof. intros Hp. unfold merged. by rewrite Hp. Qed.

Lemma failures_perm l1 l2 : l1 ≡ₚ l2 → failures l1 ≡ₚ failures l2.
Proof. intros Hp. unfold failures. by rewrite Hp. Qed.

Lemma len_perm {A} (l1 l2 : list A) : l1 ≡ₚ l2 → len l1 = len l2.
Proof. intros Hp. unfold len. by rewrite Hp. Qed.

(** What the maps hold when the loop started from the variables of
    [aggregateResults]. *)
Lemma new_vars_tallied_from d results v :
  tallied (new_vars d) results v →
  (∀ k, map_index 0 (Summary.ByService (summary v)) k
        = len (merged (of_service k results))) ∧
  (∀ k, is_Some (entries (Summary.ByService (summary v)) !! k)
        ↔ succeeded_with CollectorResult.Service k results) ∧
  (∀ k, map_index 0 (Summary.ByRegion (summary v)) k
        = len (merged (of_region k results))) ∧
  (∀ k, is_Some (entries (Summary.ByRegion (summary v)) !! k)
        ↔ succeeded_with CollectorResult.Region k results) ∧
  (∀ k, map_index 0 (Summary.ByState (summary v)) k
        = if decide (k = "") then 0 else len (in_state k (merged results))) ∧
  (∀ k, is_Some (entries (Summary.ByState (summary v)) !! k)
        ↔ k ≠ "" ∧ in_state k (merged results) ≠ []) ∧
  (∀ k, is_Some (entries (regionSet v) !! k)
        ↔ succeeded_with CollectorResult.Region k results) ∧
  (∀ k, is_Some (entries (serviceSet v) !! k)
        ↔ succeeded_with CollectorResult.Service k results).
Proof.
  assert (Hnone : ∀ V k, ¬ is_Some ((∅ : gmap string V) !! k)).
  { intros V k. rewrite lookup_empty. by intros [? ?]. }
  intros (Ha & Hb & Hc & Hd & He & Hf & Hg & Hh). simpl in *.
  split_and!; intros k.
  - rewrite Ha, lookup_empty. simpl. lia.
  - rewrite Hb. pose proof (Hnone Z k). tauto.
  - rewrite Hc, lookup_empty. simpl. lia.
  - rewrite Hd. pose proof (Hnone Z k). tauto.
  - rewrite He, lookup_empty. simpl. lia.
  - rewrite Hf. pose proof (Hnone Z k). tauto.
  - rewrite Hg. pose proof (Hnone bool k). tauto.
  - rewrite Hh. pose proof (Hnone bool k). tauto.
Qed.

(** The results with an error leave everything but the error list and
    the error count as it is: the loop over all results and the loop over
    those without an error end with the same data. *)
Lemma fold_results_without_error results v1 v2 v1' :
  same_data v1 v2 → for_range results fold_result v1 = Ok v1' →
  ∃ v2', for_range (without_error results) fold_result v2 = Ok v2' ∧
         same_data v1' v2'.
Proof.
  revert v1 v2. induction results as [|r l IH]; intros v1 v2 Hsame; simpl.
  - intros [= <-]. eauto.
  - destruct (CollectorResult.Error r) as [err|] eqn:He.
    + destruct (fold_result_failed v1 r err He) as (u & -> & Hu & _). simpl.
      unfold without_error. rewrite filter_cons_False by (by rewrite He).
      apply IH. by eapply same_data_trans.
    + unfold without_error. rewrite filter_cons_True by done.
      fold (without_error l). simpl.
      destruct (fold_result v1 r) as [u1| |] eqn:H1; simpl; [|done..].
      destruct (fold_result_same _ _ _ _ Hsame H1) as (u2 & -> & Hu). simpl.
      by apply IH.
Qed.

Lemma failures_without_error results : failures (without_error results) = [].
Proof.
  induction results as [|r l IH]; [done|].
  destruct (CollectorResult.Error r) as [err|] eqn:He.
  - unfold without_error. by rewrite filter_cons_False by (by rewrite He).
  - unfold without_error. rewrite filter_cons_True by done.
    fold (without_error l). rewrite failures_cons, IH.
    unfold failures. simpl. by rewrite He.
Qed.

(** ** The executor *)

Lemma runM_bind {A B} (m : M A) (f : A → M B) (w : World) :
  runM (m ≫= f) w
  = match runM m w with
    | (Ok a, w') => runM (f a) w'
    | (Panic msg, w') => (Panic msg, w')
    | (Hang, w') => (Hang, w')
    end.
Proof. reflexivity. Qed.


Lemma elem_of_indexed (f : nat → Action) (n : nat) (a : Action) :
  a ∈ f <$> seq 0 n ↔ ∃ i, a = f i ∧ (i < n)%nat.
Proof.
  rewrite list_elem_of_fmap. split; intros (i & -> & Hi); exists i; split; try done.
  - apply elem_of_seq in Hi. lia.
  - apply elem_of_seq. lia.
Qed.

Lemma elem_of_enabled capacity s a :
  a ∈ enabled capacity s ↔
  match a with
  | Go => unstarted s ≠ []
  | Acquire i => len (holding s) < capacity ∧ (i < length (blocked s))%nat
  | Leave i => ctx s = Cancelled ∧ (i < length (blocked s))%nat
  | Complete i => (i < length (holding s))%nat
  | Cancel => ctx s = Pending
  end.
Proof.
  unfold enabled. rewrite !elem_of_app.
  assert (Hgo : a ∈ match unstarted s with [] => [] | _ :: _ => [Go] end
                ↔ a = Go ∧ unstarted s ≠ []).
  { destruct (unstarted s); [rewrite elem_of_nil|rewrite list_elem_of_singleton];
      intuition congruence. }
  assert (Hacq : a ∈ (if len (holding s) <? capacity
                      then Acquire <$> seq 0 (length (blocked s)) else [])
                 ↔ len (holding s) < capacity
                   ∧ ∃ i, a = Acquire i ∧ (i < length (blocked s))%nat).
  { destruct (Z.ltb_spec (len (holding s)) capacity);
      [rewrite elem_of_indexed|rewrite elem_of_nil]; [tauto|]. split; [done|lia]. }
  assert (Hlv : a ∈ (if decide (ctx s = Cancelled)
                     then Leave <$> seq 0 (length (blocked s)) else [])
                ↔ ctx s = Cancelled
                  ∧ ∃ i, a = Leave i ∧ (i < length (blocked s))%nat).
  { destruct (decide (ctx s = Cancelled));
      [rewrite elem_of_indexed|rewrite elem_of_nil]; tauto. }
  assert (Hc : a ∈ (if decide (ctx s = Pending) then [Cancel] else [])
               ↔ a = Cancel ∧ ctx s = Pending).
  { destruct (decide (ctx s = Pending));
      [rewrite list_elem_of_singleton|rewrite elem_of_nil]; tauto. }
  rewrite Hgo, Hacq, Hlv, Hc, elem_of_indexed. clear.
  destruct a; split;
    repeat match goal with
           | |- _ → _ => intros ?
           | H : _ ∨ _ |- _ => destruct H
           | H : _ ∧ _ |- _ => destruct H
           | H : ∃ _, _ |- _ => destruct H
           | H : _ = _ |- _ => discriminate H || (injection H as ->)
           end; eauto 10.
Qed.

Lemma choose_elem_of pick s a others : choose pick s a others ∈ a :: others.
Proof.
  unfold choose. apply list_elem_of_In, nth_In.
  apply Nat.mod_upper_bound. simpl. lia.
Qed.

Lemma enabled_not_finished capacity s :
  1 ≤ capacity → finished s = false → enabled capacity s ≠ [].
Proof.
  intros Hcap Hfin Hen.
  assert (Hnone : ∀ a, a ∉ enabled capacity s) by (rewrite Hen; apply not_elem_of_nil).
  unfold finished in Hfin.
  destruct (unstarted s) as [|item rest] eqn:Hu.
  - destruct (holding s) as [|h hs] eqn:Hh.
    + destruct (blocked s) as [|b bs] eqn:Hb; [done|].
      apply (Hnone (Acquire 0)), elem_of_enabled. rewrite Hh, Hb. simpl.
      unfold len. simpl. lia.
    + apply (Hnone (Complete 0)), elem_of_enabled. rewrite Hh. simpl. lia.
  - apply (Hnone Go), elem_of_enabled. by rewrite Hu.
Qed.

Local Ltac step_goals :=
  split_and!; try done; try lia; try (intros; split; [done|lia]).

Section executor_steps.

Variable o : Orchestrator.
Variable stderr : option bool.
Variable opts : CollectOptions.t.

Hypothesis Hreturn : collectors_return o.

Lemma collectSingle_returns ctx item verbose w :
  registered o item →
  ∃ result w', runM (collectSingle o stderr ctx item verbose) w = (Ok result, w').
Proof.
  intros [c Hc]. unfold collectSingle. rewrite Hc. simpl.
  destruct (verbose && bool_decide (stderr = Some true)); simpl.
  - destruct (Hreturn _ c ctx (workItem.Region item)
                (mkWorld (wall w) (log w ++ [EvStderr
                   ("Collecting " +:+ workItem.Service item +:+ " resources in "
                    +:+ workItem.Region item +:+ "...")])) Hc)
      as ([resources err] & w' & ->).
    simpl. eauto.
  - destruct (Hreturn _ c ctx (workItem.Region item) w Hc)
      as ([resources err] & w' & ->).
    simpl. eauto.
Qed.

Lemma perform_enabled capacity a s w :
  all_registered o s → a ∈ enabled capacity s →
  ∃ s' w',
    runM (perform o stderr opts a s) w = (Ok s', w') ∧
    all_registered o s' ∧
    (potential s' < potential s)%nat ∧
    (len (holding s) ≤ capacity → len (holding s') ≤ capacity) ∧
    (ctx s = Background →
     ctx s' = Background ∧
     (length (results s') + outstanding s'
      = length (results s) + outstanding s)%nat).
Proof.
  intros (Hu & Hb & Hh) Ha. apply elem_of_enabled in Ha.
  destruct s as [us bs hs rs c]. unfold all_registered, potential, outstanding, len in *.
  simpl in *. destruct a as [|i|i|i|]; cbn [perform unstarted blocked holding results ctx].
  - destruct us as [|item rest]; [done|]. apply Forall_cons in Hu as [Hi Hu].
    eexists _, _. split; [reflexivity|]. simpl. rewrite !length_app. simpl.
    step_goals.
    apply Forall_app; split; [done|]. by apply Forall_singleton.
  - destruct Ha as [Hcap Hi]. destruct (lookup_lt_is_Some_2 bs i Hi) as [item Hitem].
    rewrite Hitem. eexists _, _. split; [reflexivity|]. simpl.
    rewrite !length_app, length_delete by eauto. simpl.
    step_goals.
    + by apply Forall_delete.
    + apply Forall_app; split; [done|]. apply Forall_singleton.
      by eapply (Forall_lookup_1 _ bs).
  - destruct Ha as [-> Hi]. eexists _, _. split; [reflexivity|]. simpl.
    rewrite length_delete by (by apply lookup_lt_is_Some_2).
    step_goals. by apply Forall_delete.
  - destruct (lookup_lt_is_Some_2 hs i Ha) as [item Hitem]. rewrite Hitem.
    assert (Hreg : registered o item) by (by eapply (Forall_lookup_1 _ hs)).
    destruct (collectSingle_returns c item (CollectOptions.Verbose opts) w Hreg)
      as (result & w' & Hrun).
    eexists _, _. split; [rewrite runM_bind, Hrun; reflexivity|]. simpl.
    rewrite !length_app, length_delete by eauto. simpl.
    step_goals. by apply Forall_delete.
  - subst c. eexists _, _. split; [reflexivity|]. simpl.
    step_goals.
Qed.

End executor_steps.

Section executor_runs.

Variable o : Orchestrator.
Variable stderr : option bool.
Variable opts : CollectOptions.t.
Variable pick : Scheduler.

Hypothesis Hreturn : collectors_return o.

Lemma finished_outstanding s : finished s = true → outstanding s = 0%nat.
Proof.
  unfold finished, outstanding.
  destruct (unstarted s), (blocked s), (holding s); done.
Qed.

Lemma unfinished_potential s : finished s = false → (0 < potential s)%nat.
Proof.
  unfold finished, potential.
  destruct (unstarted s), (blocked s), (holding s); simpl; try done; lia.
Qed.

Lemma run_tasks_returns capacity fuel s w :
  1 ≤ capacity → all_registered o s → (potential s ≤ fuel)%nat →
  ∃ s' w',
    runM (run_tasks o stderr opts pick capacity fuel s) w = (Ok s', w') ∧
    finished s' = true ∧
    (ctx s = Background →
     length (results s') = (length (results s) + outstanding s)%nat).
Proof.
  intros Hcap. revert s w. induction fuel as [|fuel IH]; intros s w Hreg Hfuel.
  - destruct (finished s) eqn:Hfin.
    + exists s, w. simpl. rewrite Hfin. split_and!; try done.
      rewrite finished_outstanding by done. lia.
    + apply unfinished_potential in Hfin. lia.
  - simpl. destruct (finished s) eqn:Hfin.
    + exists s, w. split_and!; try done.
      rewrite finished_outstanding by done. lia.
    + pose proof (enabled_not_finished capacity s Hcap Hfin) as Hen.
      destruct (enabled capacity s) as [|a others] eqn:Hacts; [done|].
      pose proof (choose_elem_of pick s a others) as Hchosen.
      rewrite <- Hacts in Hchosen.
      destruct (perform_enabled o stderr opts Hreturn capacity _ s w Hreg Hchosen)
        as (s1 & w1 & Hstep & Hreg1 & Hpot & _ & Hbg).
      rewrite runM_bind, Hstep.
      destruct (IH s1 w1 Hreg1) as (s' & w' & Hrun & Hfin' & Hlen); [lia|].
      exists s', w'. split_and!; try done.
      intros Hctx. destruct (Hbg Hctx) as [Hctx1 Hcount]. rewrite Hlen by done. lia.
Qed.

End executor_runs.

(** Under a context that is never cancelled every work item yields a
    result, whatever the scheduler does and whether or not fail-fast is on. *)
Lemma executeCollection_background_runs_every_item
    (o : Orchestrator) (stderr : option bool) (opts : CollectOptions.t)
    (pick : Scheduler) (workItems : list workItem.t) (w : World) :
  1 ≤ CollectOptions.Parallel opts →
  collectors_return o →
  Forall (registered o) workItems →
  ∃ results w',
    runM (executeCollection o stderr opts pick Background workItems) w
      = (Ok results, w') ∧
    length results = length workItems.
Proof.
  intros Hcap Hreturn Hreg. unfold executeCollection, make_chan.
  destruct (Z.ltb_spec (CollectOptions.Parallel opts) 0); [lia|].
  set (start := mkTasks workItems [] [] [] Background).
  destruct (run_tasks_returns o stderr opts pick Hreturn
              (CollectOptions.Parallel opts) (potential start) start w)
    as (s' & w' & Hrun & _ & Hlen); [done| |lia|].
  { by unfold all_registered. }
  exists (results s'), w'. rewrite runM_bind. simpl. rewrite Hrun.
  split; [done|]. rewrite Hlen by done. unfold outstanding. simpl. lia.
Qed.

(** With a semaphore without slots and a context that is never cancelled,
    no scheduler gets a work item through. *)
Lemma run_tasks_no_slot
    (o : Orchestrator) (stderr : option bool) (opts : CollectOptions.t)
    (pick : Scheduler) (us bs : list workItem.t) (fuel : nat) (w : World) :
  us ≠ [] ∨ bs ≠ [] → (length us ≤ fuel)%nat →
  (runM (run_tasks o stderr opts pick 0 fuel (mkTasks us bs [] [] Background)) w).1
  = Hang.
Proof.
  revert bs fuel. induction us as [|u us IH]; intros bs fuel Hne Hfuel.
  - destruct Hne as [?|Hbs]; [done|]. destruct bs; [done|]. by destruct fuel.
  - destruct fuel as [|fuel]; [simpl in Hfuel; lia|].
    assert (Hstep : run_tasks o stderr opts pick 0 (S fuel)
                      (mkTasks (u :: us) bs [] [] Background)
                    = (s' ← perform o stderr opts Go
                              (mkTasks (u :: us) bs [] [] Background);
                       run_tasks o stderr opts pick 0 fuel s')).
    { cbn [run_tasks]. unfold finished, enabled, choose. by simpl. }
    rewrite Hstep, runM_bind. simpl. apply IH; [|simpl in Hfuel; lia].
    right. by destruct bs.
Qed.

(** X8.  With a limit of 0 and a context that can never be cancelled,
    [executeCollection] blocks for ever as soon as there is a work item:
    no goroutine gets a slot and none can leave, under every scheduler. *)
Lemma executeCollection_no_slot_hangs
    (o : Orchestrator) (stderr : option bool) (opts : CollectOptions.t)
    (pick : Scheduler) (item : workItem.t) (rest : list workItem.t) (w : World) :
  CollectOptions.Parallel opts = 0 →
  (runM (executeCollection o stderr opts pick Background (item :: rest)) w).1 = Hang.
Proof.
  intros Hcap. unfold executeCollection. rewrite Hcap, runM_bind.
  cbn [make_chan Z.ltb Z.compare liftR runM]. rewrite runM_bind.
  pose proof (run_tasks_no_slot o stderr opts pick (item :: rest) []
                (potential (mkTasks (item :: rest) [] [] [] Background)) w) as H.
  destruct (runM (run_tasks _ _ _ _ _ _ _) w) as [[s| |] w'] eqn:Hrun;
    simpl in H |- *; try done.
  - discriminate H; [by left|unfold potential; simpl; lia].
  - discriminate H; [by left|unfold potential; simpl; lia].
Qed.

(** ** The executor as a transition system *)

Section executor_invariants.

Variable o : Orchestrator.
Variable stderr : option bool.
Variable opts : CollectOptions.t.

Lemma collectSingle_item ctx item verbose w result w' :
  runM (collectSingle o stderr ctx item verbose) w = (Ok result, w') →
  item_of result = item.
Proof.
  unfold collectSingle. cbv zeta. rewrite runM_bind.
  destruct (runM (if verbose && bool_decide (stderr = Some true) then _ else _) w)
    as [[[]| |] w1]; [|done..].
  simpl. destruct (receiver _) as [c| |]; [|done..].
  destruct (runM (Collector.Collect c ctx (workItem.Region item)) w1)
    as [[[resources err]| |] w2]; [|done..].
  simpl. intros [= <- _]. by destruct item.
Qed.

Local Ltac to_front :=
  rewrite <- ?app_assoc; simpl; rewrite <- ?Permutation_middle;
  rewrite <- ?app_assoc, ?app_nil_r; simpl.

(** What one step keeps. *)
Lemma step_keeps capacity s w s' w' :
  step o stderr opts capacity (s, w) (s', w') →
  (len (holding s) ≤ capacity → len (holding s') ≤ capacity) ∧
  accounted s' ⊆+ accounted s ∧
  (ctx s = Background → ctx s' = Background ∧ accounted s' ≡ₚ accounted s) ∧
  (potential s' < potential s)%nat.
Proof.
  inversion 1 as [a s0 w0 s1 w1 Ha Hrun]; subst.
  apply elem_of_enabled in Ha.
  destruct s as [us bs hs rs c]. unfold accounted, potential, len in *.
  simpl in *.
  destruct a as [|i|i|i|]; cbn [perform unstarted blocked holding results ctx] in Hrun.
  - destruct us as [|item rest]; [done|]. injection Hrun as <- <-. simpl.
    assert (Hp : rest ++ (bs ++ [item]) ++ hs ++ (item_of <$> rs)
                 ≡ₚ item :: rest ++ bs ++ hs ++ (item_of <$> rs)) by (by to_front).
    rewrite !length_app. simpl.
    split_and!; [done|by rewrite Hp|by intros ->|lia].
  - destruct Ha as [Hcap Hi]. destruct (lookup_lt_is_Some_2 bs i Hi) as [item Hitem].
    rewrite Hitem in Hrun. injection Hrun as <- <-. simpl.
    pose proof (delete_Permutation bs i item Hitem) as Hb.
    rewrite !length_app, length_delete by eauto.
    remember (delete i bs) as bs' eqn:E. clear E.
    assert (Hp : us ++ bs' ++ (hs ++ [item]) ++ (item_of <$> rs)
                 ≡ₚ us ++ bs ++ hs ++ (item_of <$> rs)).
    { rewrite Hb. by to_front. }
    simpl. split_and!; [lia|by rewrite Hp|by intros ->|lia].
  - destruct Ha as [-> Hi]. injection Hrun as <- <-. simpl.
    rewrite length_delete by (by apply lookup_lt_is_Some_2).
    split_and!; [done| |done|lia].
    apply submseteq_app; [done|]. apply submseteq_app; [|done].
    apply sublist_submseteq, sublist_delete.
  - destruct (lookup_lt_is_Some_2 hs i Ha) as [item Hitem]. rewrite Hitem in Hrun.
    rewrite runM_bind in Hrun.
    destruct (runM (collectSingle _ _ _ _ _) w) as [[result| |] w2] eqn:Hc; [|done..].
    apply collectSingle_item in Hc. simpl in Hrun. injection Hrun as <- <-. simpl.
    pose proof (delete_Permutation hs i item Hitem) as Hh.
    rewrite length_delete by eauto.
    remember (delete i hs) as hs' eqn:E. clear E.
    assert (Hp : us ++ bs ++ hs' ++ (item_of <$> rs ++ [result])
                 ≡ₚ us ++ bs ++ hs ++ (item_of <$> rs)).
    { rewrite Hh, fmap_app. simpl. rewrite Hc. by to_front. }
    split_and!; [lia|by rewrite Hp|intros ->; split; [done|by rewrite Hp]|lia].
  - subst c. injection Hrun as <- <-. simpl.
    split_and!; [done|done|done|lia].
Qed.

Lemma reachable_keeps capacity x y :
  rtc (step o stderr opts capacity) x y →
  (len (holding x.1) ≤ capacity → len (holding y.1) ≤ capacity) ∧
  accounted y.1 ⊆+ accounted x.1 ∧
  (ctx x.1 = Background → ctx y.1 = Background ∧ accounted y.1 ≡ₚ accounted x.1).
Proof.
  induction 1 as [x|[s w] [s1 w1] z Hstep _ (IHcap & IHsub & IHbg)].
  - split_and!; [done|done|by intros ?].
  - apply step_keeps in Hstep as (Hcap & Hsub & Hbg & _). simpl in *.
    split_and!.
    + tauto.
    + by etrans.
    + intros Hc. destruct (Hbg Hc) as [Hc1 Hp1]. destruct (IHbg Hc1) as [Hc2 Hp2].
      split; [done|]. by etrans.
Qed.

Variable pick : Scheduler.

(** What [run_tasks] returns was reached step by step, and is finished. *)
Lemma run_tasks_reachable capacity fuel s w s' w' :
  runM (run_tasks o stderr opts pick capacity fuel s) w = (Ok s', w') →
  rtc (step o stderr opts capacity) (s, w) (s', w') ∧ finished s' = true.
Proof.
  revert s w. induction fuel as [|fuel IH]; intros s w; simpl.
  - destruct (finished s) eqn:Hfin.
    + intros [= <- <-]. done.
    + by destruct (enabled capacity s).
  - destruct (finished s) eqn:Hfin.
    + intros [= <- <-]. done.
    + destruct (enabled capacity s) as [|a others] eqn:Hacts; [done|].
      pose proof (choose_elem_of pick s a others) as Hchosen.
      rewrite <- Hacts in Hchosen. rewrite runM_bind.
      destruct (runM (perform _ _ _ _ s) w) as [[s1| |] w1] eqn:Hstep; [|done..].
      intros Hrun. destruct (IH _ _ Hrun) as [Hrtc Hfin'].
      split; [|done]. eapply rtc_l; [|done]. by econstructor.
Qed.

End executor_invariants.

(** The scheduler is only asked about states in which the semaphore is
    not overdrawn: two schedulers that pick alike in those give the same
    run. *)
Lemma run_tasks_same_choices o stderr opts pick pick' capacity fuel s w :
  same_choices capacity pick pick' →
  len (holding s) ≤ capacity →
  runM (run_tasks o stderr opts pick' capacity fuel s) w
  = runM (run_tasks o stderr opts pick capacity fuel s) w.
Proof.
  intros Hsame. revert s w. induction fuel as [|fuel IH]; intros s w Hcap; simpl.
  - done.
  - destruct (finished s); [done|].
    destruct (enabled capacity s) as [|a others] eqn:Hacts; [done|].
    assert (Hchoice : choose pick' s a others = choose pick s a others).
    { unfold choose. by rewrite (Hsame s Hcap). }
    rewrite Hchoice, !runM_bind.
    pose proof (choose_elem_of pick s a others) as Hchosen.
    rewrite <- Hacts in Hchosen.
    destruct (runM (perform _ _ _ _ s) w) as [[s1| |] w1] eqn:Hstep; [|done..].
    apply IH.
    assert (Hs : step o stderr opts capacity (s, w) (s1, w1)) by by econstructor.
    apply step_keeps in Hs as (Hkeep & _). tauto.
Qed.

(** With no slot and a context that is or gets cancelled, every goroutine
    leaves at the [select]. *)
Lemma run_tasks_no_slot_cancelled
    (o : Orchestrator) (stderr : option bool) (opts : CollectOptions.t)
    (pick : Scheduler) (fuel : nat) (s : Tasks) (w : World) :
  ctx s ≠ Background → holding s = [] → (potential s ≤ fuel)%nat →
  ∃ s', runM (run_tasks o stderr opts pick 0 fuel s) w = (Ok s', w) ∧
        results s' = results s.
Proof.
  revert s. induction fuel as [|fuel IH]; intros s Hctx Hhold Hfuel.
  - destruct (finished s) eqn:Hfin.
    + exists s. simpl. by rewrite Hfin.
    + apply unfinished_potential in Hfin. lia.
  - simpl. destruct (finished s) eqn:Hfin; [by exists s|].
    assert (Hen : enabled 0 s ≠ []).
    { intros Hnil.
      assert (Hnone : ∀ a, a ∉ enabled 0 s) by (rewrite Hnil; apply not_elem_of_nil).
      unfold finished in Hfin. rewrite Hhold in Hfin.
      destruct (unstarted s) as [|u us] eqn:Hu.
      - destruct (blocked s) as [|b bs] eqn:Hb; [done|].
        destruct (ctx s) eqn:Hc; [done| |].
        + apply (Hnone Cancel), elem_of_enabled. done.
        + apply (Hnone (Leave 0)), elem_of_enabled. rewrite Hb. simpl. split; [done|lia].
      - apply (Hnone Go), elem_of_enabled. by rewrite Hu. }
    destruct (enabled 0 s) as [|a others] eqn:Hacts; [done|].
    pose proof (choose_elem_of pick s a others) as Hchosen.
    rewrite <- Hacts in Hchosen. apply elem_of_enabled in Hchosen.
    rewrite runM_bind.
    destruct s as [us bs hs rs c]. simpl in *. subst hs.
    unfold potential in *. simpl in *.
    destruct (choose pick _ a others) as [|i|i|i|];
      cbn [perform unstarted blocked holding results ctx].
    + destruct us as [|item rest]; [done|]. simpl.
      destruct (IH (mkTasks rest (bs ++ [item]) [] rs c)) as (s' & Hrun & Hres);
        [done|done|simpl; rewrite length_app; simpl in *; lia|].
      exists s'. by rewrite Hrun.
    + unfold len in Hchosen. simpl in Hchosen. lia.
    + destruct Hchosen as [-> Hi]. simpl.
      destruct (IH (mkTasks us (delete i bs) [] rs Cancelled)) as (s' & Hrun & Hres);
        [done|done| |].
      { simpl. rewrite length_delete by (by apply lookup_lt_is_Some_2).
        simpl in *. lia. }
      exists s'. by rewrite Hrun.
    + simpl in Hchosen. lia.
    + subst c. simpl.
      destruct (IH (mkTasks us bs [] rs Cancelled)) as (s' & Hrun & Hres);
        [done|done|simpl in *; lia|].
      exists s'. by rewrite Hrun.
Qed.

Lemma executeCollection_no_slot_run
    (o : Orchestrator) (stderr : option bool) (opts : CollectOptions.t)
    (pick : Scheduler) (ctx : Context) (workItems : list workItem.t) (w : World) :
  CollectOptions.Parallel opts = 0 →
  ctx ≠ Background →
  runM (executeCollection o stderr opts pick ctx workItems) w = (Ok [], w).
Proof.
  intros Hcap Hctx. unfold executeCollection. rewrite Hcap, runM_bind. simpl.
  destruct (run_tasks_no_slot_cancelled o stderr opts pick
              (potential (mkTasks workItems [] [] [] ctx))
              (mkTasks workItems [] [] [] ctx) w) as (s' & Hrun & Hres);
    [done|done|lia|].
  simpl in Hrun. rewrite Hrun. simpl in *. by rewrite Hres.
Qed.

(** ** The work matrix builder *)

Lemma append_items service (l : list string) (items : list workItem.t) :
  for_range l (λ items region, Ok (items ++ [workItem.mk service region])) items
  = Ok (items ++ (workItem.mk service <$> l)).
Proof.
  revert items. induction l as [|r l IH]; intros items; simpl.
  - by rewrite app_nil_r.
  - rewrite IH. by rewrite <- app_assoc.
Qed.

Lemma len_pos_iff {A} (l : list A) : (0 <? len l) = true ↔ l ≠ [].
Proof.
  unfold len. destruct l; simpl; [|split; [done|intros _; apply Z.ltb_lt; lia]].
  split; [discriminate|done].
Qed.

Lemma regions_for_declared o regions service c :
  collector_of o service = Some c → Collector.Regions c ≠ [] →
  regions_for o regions service = Collector.Regions c.
Proof. intros Hc Hne. unfold regions_for. by rewrite Hc, decide_False. Qed.

Lemma regions_for_selected o regions service c :
  collector_of o service = Some c → Collector.Regions c = [] →
  regions_for o regions service = regions.
Proof. intros Hc Hnil. unfold regions_for. by rewrite Hc, decide_True. Qed.

Lemma createWorkItems_from o regions services items :
  Forall (λ service, is_Some (collector_of o service)) services →
  for_range services
    (λ items service,
       collector ← receiver (collector_of o service);
       let collectorRegions := Collector.Regions collector in
       if 0 <? len collectorRegions
       then for_range collectorRegions
              (λ items region, Ok (items ++ [workItem.mk service region])) items
       else for_range regions
              (λ items region, Ok (items ++ [workItem.mk service region])) items)
    items
  = Ok (items ++ (services ≫= (λ service,
                    workItem.mk service <$> regions_for o regions service))).
Proof.
  intros Hall. revert items.
  induction Hall as [|service l [c Hc] _ IH]; intros items.
  - simpl. by rewrite app_nil_r.
  - cbn [for_range]. rewrite Hc. cbn [receiver mbind Result_bind].
    rewrite bind_cons, app_assoc.
    destruct (0 <? len (Collector.Regions c)) eqn:Hlen.
    + apply len_pos_iff in Hlen.
      rewrite (regions_for_declared o regions service c) by done.
      rewrite append_items. cbn [mbind Result_bind]. by rewrite IH.
    + assert (Hnil : Collector.Regions c = []).
      { destruct (Collector.Regions c) eqn:E; [done|].
        assert ((0 <? len (Collector.Regions c)) = true) by (apply len_pos_iff; congruence).
        congruence. }
      rewrite (regions_for_selected o regions service c) by done.
      rewrite append_items. cbn [mbind Result_bind]. by rewrite IH.
Qed.

#[global] Instance workItem_mk_inj service : Inj (=) (=) (workItem.mk service).
Proof. by intros r1 r2 [= ->]. Qed.

Lemma NoDup_regions_for o regions service :
  NoDup regions →
  map_Forall (λ _ c, NoDup (Collector.Regions c)) (entries (collectors o)) →
  NoDup (regions_for o regions service).
Proof.
  intros Hr Hc. unfold regions_for.
  destruct (collector_of o service) as [c|] eqn:Hs; [|constructor].
  case_decide; [done|]. by apply (Hc service c).
Qed.

(** ** Validation of services and regions *)

Lemma prepareServices_partition o (services valid invalid : list string) :
  foldl (λ '(valid, invalid) service,
           if bool_decide (is_Some (collector_of o service))
           then (valid ++ [service], invalid)
           else (valid, invalid ++ [service]))
        (valid, invalid) services
  = (valid ++ filter (λ service, is_Some (collector_of o service)) services,
     invalid ++ unknown_services o services).
Proof.
  revert valid invalid. unfold unknown_services.
  induction services as [|service l IH]; intros valid invalid; simpl.
  - by rewrite !app_nil_r.
  - destruct (collector_of o service) as [c|] eqn:Hc.
    + rewrite bool_decide_eq_true_2 by eauto. rewrite IH.
      rewrite filter_cons_True by (rewrite Hc; eauto).
      rewrite filter_cons_False by (rewrite Hc; done).
      by rewrite <- app_assoc.
    + rewrite bool_decide_eq_false_2 by (intros [? ?]; done). rewrite IH.
      rewrite filter_cons_False by (rewrite Hc; intros [? ?]; done).
      rewrite filter_cons_True by (by rewrite Hc).
      by rewrite <- app_assoc.
Qed.

Lemma prepareServices_unknown ord o services :
  unknown_services o services ≠ [] →
  prepareServices ord o services
  = ([], Some ("invalid services: "
               +:+ strings_Join (unknown_services o services) ", ")).
Proof.
  intros Hne. unfold prepareServices.
  destruct (len services =? 0) eqn:Hlen.
  - apply Z.eqb_eq in Hlen. destruct services; [done|]. unfold len in Hlen.
    simpl in Hlen. lia.
  - rewrite prepareServices_partition. simpl.
    apply len_pos_iff in Hne. by rewrite Hne.
Qed.

Lemma DiscoverRegions_names answer :
  foldl (λ regions region,
           match region with
           | Some name => regions ++ [name]
           | None => regions
           end) [] answer
  = region_names answer.
Proof.
  unfold region_names.
  enough (∀ acc, foldl (λ regions (region : option string),
                   match region with
                   | Some name => regions ++ [name]
                   | None => regions
                   end) acc answer = acc ++ omap id answer) as H by apply H.
  induction answer as [|[name|] l IH]; intros acc; simpl.
  - by rewrite app_nil_r.
  - rewrite IH. by rewrite <- app_assoc.
  - apply IH.
Qed.

Lemma regionMap_made (available : list string) (g : gmap string bool) :
  ∃ g', for_range available (λ m region, map_assign m region true) (made g)
        = Ok (made g') ∧
        ∀ region, default false (g' !! region) = true
                  ↔ default false (g !! region) = true ∨ region ∈ available.
Proof.
  revert g. induction available as [|r l IH]; intros g; simpl.
  - exists g. split; [done|]. intros region. rewrite elem_of_nil. tauto.
  - destruct (IH (<[r := true]> g)) as (g' & -> & Hg'). exists g'. split; [done|].
    intros region. rewrite Hg', elem_of_cons.
    destruct (decide (r = region)) as [->|Hne].
    + rewrite lookup_insert_eq. simpl. tauto.
    + rewrite lookup_insert_ne by done. split; [tauto|].
      intros [?|[?|?]]; try tauto. congruence.
Qed.

Lemma ValidateRegions_partition (regionMap : gomap bool) (available : list string)
    (regions valid invalid : list string) :
  (∀ region, map_index false regionMap region = true ↔ region ∈ available) →
  foldl (λ '(valid, invalid) region,
           if map_index false regionMap region
           then (valid ++ [region], invalid)
           else (valid, invalid ++ [region]))
        (valid, invalid) regions
  = (valid ++ filter (λ region, region ∈ available) regions,
     invalid ++ filter (λ region, region ∉ available) regions).
Proof.
  intros Hmap. revert valid invalid.
  induction regions as [|region l IH]; intros valid invalid; simpl.
  - by rewrite !app_nil_r.
  - destruct (map_index false regionMap region) eqn:Hr.
    + apply Hmap in Hr. rewrite IH.
      rewrite filter_cons_True, filter_cons_False by tauto.
      by rewrite <- app_assoc.
    + assert (region ∉ available) by (rewrite <- Hmap; congruence). rewrite IH.
      rewrite filter_cons_False, filter_cons_True by tauto.
      by rewrite <- app_assoc.
Qed.

(** ** [sort.Strings] *)

Lemma string_compare_trans (a b c : string) :
  String.compare a b ≠ Gt → String.compare b c ≠ Gt → String.compare a c ≠ Gt.
Proof.
  revert b c. induction a as [|x a IH]; intros [|y b] [|z c]; simpl; try done.
  unfold Ascii.compare.
  destruct (N.compare_spec (Ascii.N_of_ascii x) (Ascii.N_of_ascii y)) as [Hxy|Hxy|Hxy];
    destruct (N.compare_spec (Ascii.N_of_ascii y) (Ascii.N_of_ascii z)) as [Hyz|Hyz|Hyz];
    try done.
  - rewrite Hxy, Hyz, N.compare_refl. apply IH.
  - intros _ _. rewrite Hxy. by apply N.compare_lt_iff in Hyz as ->.
  - intros _ _. rewrite <- Hyz. by apply N.compare_lt_iff in Hxy as ->.
  - intros _ _. assert (H : (Ascii.N_of_ascii x < Ascii.N_of_ascii z)%N) by lia.
    by apply N.compare_lt_iff in H as ->.
Qed.

#[global] Instance string_le_trans : Transitive string_le.
Proof.
  intros a b c. unfold string_le, String.leb.
  pose proof (string_compare_trans a b c).
  destruct (String.compare a b), (String.compare b c), (String.compare a c);
    try done; intros _ _; exfalso; by apply H.
Qed.

#[global] Instance string_le_antisym : AntiSymm (=) string_le.
Proof. intros a b. apply String.leb_antisym. Qed.

Lemma string_le_total a b : string_le a b ∨ string_le b a.
Proof. apply String.leb_total. Qed.

Lemma insert_sorted_perm x l : insert_sorted x l ≡ₚ x :: l.
Proof.
  induction l as [|y l IH]; simpl; [done|].
  destruct (String.leb x y); [done|]. rewrite IH. apply perm_swap.
Qed.

Lemma insert_sorted_Sorted x l :
  Sorted string_le l → Sorted string_le (insert_sorted x l).
Proof.
  induction 1 as [|y l Hl IH Hhd]; simpl.
  - by repeat constructor.
  - destruct (String.leb x y) eqn:Hxy.
    + constructor; [by constructor|]. by constructor.
    + constructor; [done|].
      assert (Hyx : string_le y x).
      { destruct (string_le_total x y) as [H|H]; [|done].
        unfold string_le in H. congruence. }
      destruct Hhd as [|z l' Hyz]; simpl; [by constructor|].
      destruct (String.leb x z); by constructor.
Qed.

Lemma sort_Strings_perm l : sort_Strings l ≡ₚ l.
Proof.
  induction l as [|x l IH]; simpl; [done|].
  by rewrite insert_sorted_perm, IH.
Qed.

Lemma sort_Strings_Sorted l : Sorted string_le (sort_Strings l).
Proof.
  induction l as [|x l IH]; simpl; [constructor|]. by apply insert_sorted_Sorted.
Qed.

Lemma sort_Strings_unique l1 l2 : l1 ≡ₚ l2 → sort_Strings l1 = sort_Strings l2.
Proof.
  intros Hp. apply (Sorted_unique string_le); try apply sort_Strings_Sorted.
  by rewrite !sort_Strings_perm.
Qed.

Lemma foldl_snoc {A} (l acc : list A) :
  foldl (λ acc x, acc ++ [x]) acc l = acc ++ l.
Proof.
  revert acc. induction l as [|x l IH]; intros acc; simpl.
  - by rewrite app_nil_r.
  - rewrite IH. by rewrite <- app_assoc.
Qed.

(** ** The builder and the validation, further *)

Lemma GetAvailableServices_perm ord o :
  GetAvailableServices ord o ≡ₚ range_map ord (collectors o).
Proof.
  unfold GetAvailableServices. by rewrite sort_Strings_perm, foldl_snoc.
Qed.

Lemma GetAvailableServices_elem_of ord o service :
  service ∈ GetAvailableServices ord o ↔ is_Some (collector_of o service).
Proof. by rewrite GetAvailableServices_perm, range_map_elem_of. Qed.

Lemma unknown_services_nil o services :
  unknown_services o services = []
  ↔ Forall (λ service, is_Some (collector_of o service)) services.
Proof.
  unfold unknown_services. induction services as [|s l IH]; simpl.
  - split; [constructor|done].
  - destruct (collector_of o s) as [c|] eqn:Hc.
    + rewrite filter_cons_False by (by rewrite Hc). rewrite IH. split.
      * intros H. constructor; [by rewrite Hc|done].
      * by intros [_ ?]%Forall_cons.
    + rewrite filter_cons_True by done. split; [done|].
      intros [[? H] _]%Forall_cons. by rewrite Hc in H.
Qed.

Lemma filter_all {A} (P : A → Prop) `{∀ x, Decision (P x)} (l : list A) :
  Forall P l → filter P l = l.
Proof.
  induction 1 as [|x l Hx _ IH]; [done|]. by rewrite filter_cons_True, IH.
Qed.

(** The services [prepareServices] lets through are registered. *)
Lemma prepareServices_ok ord o services :
  unknown_services o services = [] →
  ∃ valid, prepareServices ord o services = (valid, None) ∧
           Forall (λ service, is_Some (collector_of o service)) valid ∧
           (services ≠ [] → valid = services).
Proof.
  intros Hnone. unfold prepareServices.
  destruct (len services =? 0) eqn:Hlen.
  - exists (GetAvailableServices ord o). split; [done|]. split.
    + apply Forall_forall. intros s. by rewrite GetAvailableServices_elem_of.
    + apply Z.eqb_eq in Hlen. destruct services; [done|].
      unfold len in Hlen. simpl in Hlen. lia.
  - rewrite prepareServices_partition, Hnone. simpl.
    apply unknown_services_nil in Hnone.
    rewrite filter_all by done. by exists services.
Qed.

Lemma createWorkItems_body o regions items service c :
  collector_of o service = Some c →
  (collector ← receiver (collector_of o service);
   let collectorRegions := Collector.Regions collector in
   if 0 <? len collectorRegions
   then for_range collectorRegions
          (λ items region, Ok (items ++ [workItem.mk service region])) items
   else for_range regions
          (λ items region, Ok (items ++ [workItem.mk service region])) items)
  = Ok (items ++ (workItem.mk service <$> regions_for o regions service)).
Proof.
  intros Hc. rewrite Hc. cbn [receiver mbind Result_bind].
  destruct (0 <? len (Collector.Regions c)) eqn:Hlen.
  - apply len_pos_iff in Hlen.
    rewrite (regions_for_declared o regions service c) by done. apply append_items.
  - assert (Hnil : Collector.Regions c = []).
    { destruct (Collector.Regions c) eqn:E; [done|].
      assert ((0 <? len (Collector.Regions c)) = true)
        by (apply len_pos_iff; congruence).
      congruence. }
    rewrite (regions_for_selected o regions service c) by done. apply append_items.
Qed.

Lemma createWorkItems_panics_from o regions services items :
  Exists (λ service, collector_of o service = None) services →
  for_range services
    (λ items service,
       collector ← receiver (collector_of o service);
       let collectorRegions := Collector.Regions collector in
       if 0 <? len collectorRegions
       then for_range collectorRegions
              (λ items region, Ok (items ++ [workItem.mk service region])) items
       else for_range regions
              (λ items region, Ok (items ++ [workItem.mk service region])) items)
    items
  = Panic "invalid memory address or nil pointer dereference".
Proof.
  intros Hex. revert items. induction services as [|service l IH]; intros items.
  - by apply Exists_nil in Hex.
  - cbn [for_range]. cbv beta.
    destruct (decide (is_Some (collector_of o service))) as [[c Hc]|Hn].
    + pose proof (createWorkItems_body o regions items service c Hc) as Hbody.
      cbv zeta in Hbody. rewrite Hbody. cbn [mbind Result_bind].
      apply IH. apply Exists_cons in Hex as [H|H]; [congruence|done].
    + destruct (collector_of o service) eqn:Hc; [by destruct Hn; eauto|done].
Qed.

Lemma DiscoverRegions_run cm ctx w :
  runM (DiscoverRegions cm ctx) w
  = (Ok (match ec2_DescribeRegions cm ctx with
         | (_, Some err) => ([], Some ("failed to describe regions: " +:+ err))
         | (answer, None) => (region_names answer, None)
         end),
     mkWorld (wall w) (log w ++ [EvDescribeRegions])).
Proof.
  unfold DiscoverRegions. rewrite runM_bind. simpl.
  destruct (ec2_DescribeRegions cm ctx) as [answer [err|]]; simpl; [done|].
  by rewrite DiscoverRegions_names.
Qed.

Lemma ValidateRegions_run cm ctx regions w :
  runM (ValidateRegions cm ctx regions) w
  = (Ok (match ec2_DescribeRegions cm ctx with
         | (_, Some err) => ([], Some ("failed to describe regions: " +:+ err))
         | (answer, None) =>
             let invalid := filter (λ region, region ∉ region_names answer) regions in
             (filter (λ region, region ∈ region_names answer) regions,
              if decide (invalid = []) then None
              else Some ("invalid regions: " +:+ strings_Join invalid ", "))
         end),
     mkWorld (wall w) (log w ++ [EvDescribeRegions])).
Proof.
  unfold ValidateRegions. rewrite runM_bind, DiscoverRegions_run.
  destruct (ec2_DescribeRegions cm ctx) as [answer [err|]]; simpl; [done|].
  destruct (regionMap_made (region_names answer) ∅) as (g & Hg & Hmem).
  unfold make_map. rewrite Hg.
  rewrite (ValidateRegions_partition (made g) (region_names answer)).
  2:{ intros region. simpl. rewrite Hmem, lookup_empty. simpl.
      split; [intros [?|?]; done|tauto]. }
  simpl.
  destruct (decide (filter (λ region, region ∉ region_names answer) regions = []))
    as [->|Hne]; [done|].
  apply len_pos_iff in Hne. by rewrite Hne.
Qed.

Lemma prepareRegions_run o ctx regions w :
  runM (prepareRegions o ctx regions) w
  = (Ok (match ec2_DescribeRegions (clientManager o) ctx with
         | (_, Some err) => ([], Some ("failed to describe regions: " +:+ err))
         | (answer, None) =>
             if decide (regions = []) then (region_names answer, None)
             else
               let invalid :=
                 filter (λ region, region ∉ region_names answer) regions in
               (filter (λ region, region ∈ region_names answer) regions,
                if decide (invalid = []) then None
                else Some ("invalid regions: " +:+ strings_Join invalid ", "))
         end),
     mkWorld (wall w) (log w ++ [EvDescribeRegions])).
Proof.
  unfold prepareRegions. destruct (len regions =? 0) eqn:Hlen.
  - apply Z.eqb_eq in Hlen. destruct regions; [|unfold len in Hlen; simpl in Hlen; lia].
    rewrite DiscoverRegions_run.
    by destruct (ec2_DescribeRegions _ ctx) as [answer [err|]].
  - rewrite ValidateRegions_run.
    destruct (ec2_DescribeRegions _ ctx) as [answer [err|]]; [done|].
    rewrite decide_False; [done|]. by intros ->.
Qed.

Lemma executeCollection_returns o stderr opts pick ctx workItems w :
  1 ≤ CollectOptions.Parallel opts →
  collectors_return o →
  Forall (registered o) workItems →
  ∃ results w',
    runM (executeCollection o stderr opts pick ctx workItems) w = (Ok results, w').
Proof.
  intros Hcap Hreturn Hreg. unfold executeCollection, make_chan.
  destruct (Z.ltb_spec (CollectOptions.Parallel opts) 0); [lia|].
  set (start := mkTasks workItems [] [] [] ctx).
  destruct (run_tasks_returns o stderr opts pick Hreturn
              (CollectOptions.Parallel opts) (potential start) start w)
    as (s' & w' & Hrun & _); [done| |lia|].
  { by unfold all_registered. }
  exists (results s'), w'. rewrite runM_bind. simpl. by rewrite Hrun.
Qed.

Lemma work_matrix_registered o services regions :
  Forall (λ service, is_Some (collector_of o service)) services →
  Forall (registered o)
    (services ≫= (λ service, workItem.mk service <$> regions_for o regions service)).
Proof.
  intros Hall. apply Forall_forall. intros item Hitem.
  apply list_elem_of_bind in Hitem as (service & Hitem & Hs).
  apply list_elem_of_fmap in Hitem as (region & -> & _).
  unfold registered. simpl. by eapply (proj1 (Forall_forall _ _) Hall).
Qed.

(** What [Collect] does once services and regions are found valid: it
    runs the executor on registered work items and aggregates. *)
Lemma Collect_valid_config
    (ord ord_regions ord_services : RangeOrder) (fold_ns : CollectorResult.t → Z)
    (stderr : option bool) (pick : Scheduler) (o : Orchestrator) (ctx : Context)
    (opts : CollectOptions.t) (w : World) (answer : list (option string)) :
  unknown_services o (CollectOptions.Services opts) = [] →
  ec2_DescribeRegions (clientManager o) ctx = (answer, None) →
  Forall (λ region, region ∈ region_names answer) (CollectOptions.Regions opts) →
  ∃ items,
    Forall (registered o) items ∧
    runM (Collect ord ord_regions ord_services fold_ns stderr pick o ctx opts) w
    = match runM (executeCollection o stderr opts pick ctx items)
              (mkWorld (wall w) (log w ++ [EvClock (wall w); EvDescribeRegions])) with
      | (Ok results, w2) =>
          match runM (aggregateResults ord_regions ord_services fold_ns results
                        (wall w)) w2 with
          | (Ok collection, w3) => (Ok (Some collection, None), w3)
          | (Panic msg, w3) => (Panic msg, w3)
          | (Hang, w3) => (Hang, w3)
          end
      | (Panic msg, w2) => (Panic msg, w2)
      | (Hang, w2) => (Hang, w2)
      end.
Proof.
  intros Hs Hd Hr. unfold Collect. rewrite runM_bind.
  cbn [runM time_Now].
  destruct (prepareServices_ok ord o _ Hs) as (valid & -> & Hvalid & _).
  rewrite runM_bind, prepareRegions_run, Hd.
  set (regions := CollectOptions.Regions opts) in *.
  assert (Hprep : (if decide (regions = []) then (region_names answer, None)
                   else
                     let invalid :=
                       filter (λ region, region ∉ region_names answer) regions in
                     (filter (λ region, region ∈ region_names answer) regions,
                      if decide (invalid = []) then None
                      else Some ("invalid regions: " +:+ strings_Join invalid ", ")))
                  = (if decide (regions = []) then region_names answer else regions,
                     @None string)).
  { case_decide; [done|]. cbv zeta. rewrite filter_all by done.
    rewrite decide_True; [done|].
    clear -Hr. induction Hr as [|x l Hx _ IH]; [done|].
    rewrite filter_cons_False by tauto. done. }
  rewrite Hprep. cbv beta iota.
  set (selected := if decide (regions = []) then region_names answer else regions).
  rewrite runM_bind. unfold createWorkItems.
  rewrite createWorkItems_from by done. cbn [runM liftR app log wall].
  rewrite <- app_assoc. cbn [app].
  exists (valid ≫= (λ service, workItem.mk service <$> regions_for o selected service)).
  split; [by apply work_matrix_registered|].
  rewrite runM_bind.
  destruct (runM (executeCollection _ _ _ _ _ _) _) as [[results| |] w2];
    [|done..].
  rewrite runM_bind.
  destruct (runM (aggregateResults _ _ _ _ _) _) as [[collection| |] w3];
    reflexivity.
Qed.

(** * The claims of the design document *)

(** C1 (as amended).  For every list of results the report of
    [aggregateResults] is consistent: its resources are those of the
    results without an error, [TotalResources] is their number, the values
    of [ByService] and those of [ByRegion] each sum to [TotalResources],
    and [Errors] counts the entries of the error list.  The values of
    [ByState] sum to the number of merged resources whose [State] is not
    empty, which can be less than [TotalResources].  The results with an
    error contribute nothing to the maps: a key of [ByService] or
    [ByRegion] is the service or the region of a result without an error
    and its value counts the resources of those results, a key of
    [ByState] is the state of a merged resource, and the three maps are
    those of the report for the results without an error alone. *)
Theorem aggregateResults_summary_consistent
    (ord_regions ord_services : RangeOrder) (fold_ns : CollectorResult.t → Z)
    (results : list CollectorResult.t) (startTime : Z) (w : World) :
  ∃ report report0,
    (runM (aggregateResults ord_regions ord_services fold_ns results startTime) w).1
      = Ok report ∧
    (runM (aggregateResults ord_regions ord_services fold_ns
             (without_error results) startTime) w).1 = Ok report0 ∧
    let s := ResourceCollection.Summary report in
    let s0 := ResourceCollection.Summary report0 in
    ResourceCollection.Resources report = merged results ∧
    Summary.TotalResources s = len (ResourceCollection.Resources report) ∧
    sum_values (Summary.ByService s) = Summary.TotalResources s ∧
    sum_values (Summary.ByRegion s) = Summary.TotalResources s ∧
    sum_values (Summary.ByState s)
      = len (filter (λ r, has_state r = true) (ResourceCollection.Resources report)) ∧
    Summary.Errors s = len (ResourceCollection.Errors report) ∧
    ResourceCollection.Errors report = failures results ∧
    (∀ k, map_index 0 (Summary.ByService s) k = len (merged (of_service k results))) ∧
    (∀ k, is_Some (entries (Summary.ByService s) !! k)
          ↔ succeeded_with CollectorResult.Service k results) ∧
    (∀ k, map_index 0 (Summary.ByRegion s) k = len (merged (of_region k results))) ∧
    (∀ k, is_Some (entries (Summary.ByRegion s) !! k)
          ↔ succeeded_with CollectorResult.Region k results) ∧
    (∀ k, map_index 0 (Summary.ByState s) k
          = if decide (k = "") then 0 else len (in_state k (merged results))) ∧
    (∀ k, is_Some (entries (Summary.ByState s) !! k)
          ↔ k ≠ "" ∧ in_state k (merged results) ≠ []) ∧
    ResourceCollection.Errors report0 = [] ∧
    ResourceCollection.Resources report0 = ResourceCollection.Resources report ∧
    Summary.ByService s0 = Summary.ByService s ∧
    Summary.ByRegion s0 = Summary.ByRegion s ∧
    Summary.ByState s0 = Summary.ByState s.
Proof.
  destruct (aggregateResults_run ord_regions ord_services fold_ns results startTime w)
    as (v & Hv & Hf & ->).
  destruct (aggregateResults_run ord_regions ord_services fold_ns
              (without_error results) startTime w) as (v0 & Hv0 & Hf0 & ->).
  exists (finish ord_regions ord_services v), (finish ord_regions ord_services v0).
  split; [done|]. split; [done|].
  pose proof (fold_results_tallied results _ _
                (maps_made_new_vars (wall w - startTime)) Hv) as Ht.
  apply new_vars_tallied_from in Ht as (Ta & Tb & Tc & Td & Te & Tf & _).
  assert (Hs : same_data (new_vars (wall w - startTime))
                 (new_vars (wall w - startTime))) by by unfold same_data.
  destruct (fold_results_without_error _ _ _ _ Hs Hv) as (u & Hu & Hsame).
  rewrite Hv0 in Hu. injection Hu as <-.
  destruct Hf as (_ & Ha & Hb & Hc & Hd & He & Hg & _).
  destruct Hf0 as (_ & _ & Hb0 & _).
  rewrite failures_without_error in Hb0.
  unfold same_data in Hsame; destruct_and!. simpl in *.
  rewrite Ha, Hb, Hc, Hd, He, Hg. split_and!; try done; try lia; congruence.
Qed.

(** C1, counterexample.  One merged resource without a state: the total
    is 1 and the values of [ByState] sum to 0. *)
Lemma ByState_sum_differs_from_total :
  ∃ report,
    (runM (aggregateResults table_order table_order (λ _, 0)
             [CollectorResult.mk "ec2" "us-east-1" [blank_resource] None] 0)
          (mkWorld 0 [])).1 = Ok report ∧
    Summary.TotalResources (ResourceCollection.Summary report) = 1 ∧
    sum_values (Summary.ByState (ResourceCollection.Summary report)) = 0.
Proof. eexists. split; [reflexivity|]. split; reflexivity. Qed.

(** C5.  A result with an error adds exactly one entry
    ["<service>/<region>: <error>"] to the error list, at its place among
    the other messages, and one to the error count.  Everything else in
    the report is what it is without that result: the resources, the
    total, the three maps, and the regions and services listed (the two
    runs may list them in different orders, as map iteration does). *)
Theorem failed_result_adds_one_error_only
    (ord_regions ord_services ord_regions' ord_services' : RangeOrder)
    (fold_ns : CollectorResult.t → Z)
    (before after : list CollectorResult.t) (result : CollectorResult.t)
    (err : string) (startTime : Z) (w : World) :
  CollectorResult.Error result = Some err →
  ∃ report report0,
    (runM (aggregateResults ord_regions ord_services fold_ns
             (before ++ result :: after) startTime) w).1 = Ok report ∧
    (runM (aggregateResults ord_regions' ord_services' fold_ns
             (before ++ after) startTime) w).1 = Ok report0 ∧
    let s := ResourceCollection.Summary report in
    let s0 := ResourceCollection.Summary report0 in
    ResourceCollection.Errors report0 = failures before ++ failures after ∧
    ResourceCollection.Errors report
      = failures before
        ++ [CollectorResult.Service result +:+ "/" +:+
            CollectorResult.Region result +:+ ": " +:+ err]
        ++ failures after ∧
    Summary.Errors s = Summary.Errors s0 + 1 ∧
    ResourceCollection.Resources report = ResourceCollection.Resources report0 ∧
    Summary.TotalResources s = Summary.TotalResources s0 ∧
    Summary.ByService s = Summary.ByService s0 ∧
    Summary.ByRegion s = Summary.ByRegion s0 ∧
    Summary.ByState s = Summary.ByState s0 ∧
    Summary.Regions s ≡ₚ Summary.Regions s0 ∧
    Summary.Services s ≡ₚ Summary.Services s0.
Proof.
  intros He.
  destruct (aggregateResults_run ord_regions ord_services fold_ns
              (before ++ result :: after) startTime w) as (v & Hv & Hf & ->).
  destruct (aggregateResults_run ord_regions' ord_services' fold_ns
              (before ++ after) startTime w) as (v0 & Hv0 & Hf0 & ->).
  exists (finish ord_regions ord_services v), (finish ord_regions' ord_services' v0).
  split; [done|]. split; [done|].
  rewrite for_range_app in Hv, Hv0.
  destruct (for_range before fold_result _) as [u| |]; simpl in Hv, Hv0; [|done..].
  destruct (fold_result_failed u result err He) as (u' & Hu' & Hsame & _).
  rewrite Hu' in Hv; simpl in Hv.
  destruct (fold_results_same _ _ _ _ Hsame Hv) as (v0' & Hv0' & Hs).
  rewrite Hv0 in Hv0'. injection Hv0' as <-.
  destruct Hf as (_ & _ & Hb & Hc & _), Hf0 as (_ & _ & Hb0 & Hc0 & _).
  rewrite failures_app in Hb, Hc, Hb0, Hc0.
  rewrite (failures_cons result after) in Hb, Hc.
  assert (Hr : failures [result]
               = [errorMsg (CollectorResult.Service result)
                    (CollectorResult.Region result) err]).
  { unfold failures. simpl. by rewrite He. }
  rewrite Hr in Hb, Hc. rewrite !len_app, len_cons, len_nil in Hc.
  rewrite len_app in Hc0.
  destruct Hs as (Hall & Hrs & Hss & _ & Hbs & Hbr & Hbst & Hrg & Hsv). simpl in *.
  split_and!; try done; try congruence; try lia.
  - rewrite Hrg, Hrs. apply Permutation_app; [done|apply range_map_perm].
  - rewrite Hsv, Hss. apply Permutation_app; [done|apply range_map_perm].
Qed.

(** C5 at a denied S3 listing that follows a successful EC2 result. *)
Lemma failed_result_adds_one_error_only_witness :
  ∃ report report0,
    (runM (aggregateResults table_order table_order (λ _, 1)
             ([CollectorResult.mk "ec2" "us-east-1" [blank_resource] None]
              ++ CollectorResult.mk "s3" "us-east-1" [] (Some "AccessDenied") :: [])
             0) (mkWorld 5 [])).1 = Ok report ∧
    (runM (aggregateResults table_order table_order (λ _, 1)
             ([CollectorResult.mk "ec2" "us-east-1" [blank_resource] None] ++ [])
             0) (mkWorld 5 [])).1 = Ok report0 ∧
    ResourceCollection.Errors report = ["s3/us-east-1: AccessDenied"] ∧
    ResourceCollection.Errors report0 = [] ∧
    ResourceCollection.Resources report = ResourceCollection.Resources report0.
Proof.
  destruct (failed_result_adds_one_error_only table_order table_order
              table_order table_order (λ _, 1)
              [CollectorResult.mk "ec2" "us-east-1" [blank_resource] None] []
              (CollectorResult.mk "s3" "us-east-1" [] (Some "AccessDenied"))
              "AccessDenied" 0 (mkWorld 5 []) eq_refl)
    as (report & report0 & H & H0 & He0 & He & _ & Hr & _).
  exists report, report0. split_and!; done.
Defined.

(** C6 (as amended).  [aggregateResults] reads the clock exactly once,
    on entry: the duration of the report is the time at which the
    function was entered minus the start time, whatever time the loop
    over the results takes afterwards. *)
Theorem duration_measured_once_before_loop
    (ord_regions ord_services : RangeOrder) (fold_ns : CollectorResult.t → Z)
    (results : list CollectorResult.t) (startTime : Z) (w : World) :
  ∃ report w',
    runM (aggregateResults ord_regions ord_services fold_ns results startTime) w
      = (Ok report, w') ∧
    Summary.Duration (ResourceCollection.Summary report) = wall w - startTime ∧
    log w' = log w ++ [EvClock (wall w)] ∧
    wall w' = wall w + elapsed fold_ns results.
Proof.
  destruct (aggregateResults_run ord_regions ord_services fold_ns results startTime w)
    as (v & _ & Hf & ->).
  eexists _, _. split; [reflexivity|].
  destruct Hf as (_ & _ & _ & _ & _ & _ & _ & _ & Hd & _). simpl in *.
  by rewrite Hd.
Qed.

(** C6, counterexample.  Entered at 150 with a start time of 100, the
    loop takes 7 ns and ends at 157; the duration is 50, not 57. *)
Lemma duration_not_measured_after_loop :
  ∃ report w',
    runM (aggregateResults table_order table_order (λ _, 7)
            [CollectorResult.mk "ec2" "us-east-1" [blank_resource] None] 100)
         (mkWorld 150 []) = (Ok report, w') ∧
    wall w' = 157 ∧
    Summary.Duration (ResourceCollection.Summary report) = 50 ∧
    Summary.Duration (ResourceCollection.Summary report) ≠ wall w' - 100.
Proof. eexists _, _. split; [reflexivity|]. simpl. split_and!; done. Qed.

(** C7 (as amended).  Apart from the duration and the order of the
    region and service lists, the report is a function of the list of
    results alone: two runs on the same list, at any times, in any worlds
    and with any map iteration orders, return the same three maps, total,
    error count, error list and resources; the resources come in the
    order of the results.  [Regions] and [Services] hold the same entries
    in both runs, in the order in which each run iterates over its maps. *)
Theorem aggregateResults_deterministic
    (ord_regions ord_services ord_regions' ord_services' : RangeOrder)
    (fold_ns fold_ns' : CollectorResult.t → Z)
    (results : list CollectorResult.t) (startTime startTime' : Z) (w w' : World) :
  ∃ report report',
    (runM (aggregateResults ord_regions ord_services fold_ns results startTime) w).1
      = Ok report ∧
    (runM (aggregateResults ord_regions' ord_services' fold_ns' results startTime') w').1
      = Ok report' ∧
    let s := ResourceCollection.Summary report in
    let s' := ResourceCollection.Summary report' in
    Summary.ByService s = Summary.ByService s' ∧
    Summary.ByRegion s = Summary.ByRegion s' ∧
    Summary.ByState s = Summary.ByState s' ∧
    Summary.TotalResources s = Summary.TotalResources s' ∧
    Summary.Errors s = Summary.Errors s' ∧
    ResourceCollection.Errors report = ResourceCollection.Errors report' ∧
    ResourceCollection.Resources report = ResourceCollection.Resources report' ∧
    ResourceCollection.Resources report = merged results ∧
    Summary.Regions s ≡ₚ Summary.Regions s' ∧
    Summary.Services s ≡ₚ Summary.Services s' ∧
    Summary.Duration s = wall w - startTime ∧
    Summary.Duration s' = wall w' - startTime'.
Proof.
  destruct (aggregateResults_run ord_regions ord_services fold_ns results startTime w)
    as (v & Hv & Hf & ->).
  destruct (aggregateResults_run ord_regions' ord_services' fold_ns' results
              startTime' w') as (v' & Hv' & Hf' & ->).
  eexists _, _. split; [reflexivity|]. split; [reflexivity|].
  assert (Hs : same_data (new_vars (wall w - startTime))
                 (new_vars (wall w' - startTime'))) by by unfold same_data.
  destruct (fold_results_same _ _ _ _ Hs Hv) as (u & Hu & Hsame).
  rewrite Hv' in Hu. injection Hu as <-.
  destruct Hf as (_ & Ha & Hb & Hc & _ & _ & _ & _ & Hd & _).
  destruct Hf' as (_ & Ha' & Hb' & Hc' & _ & _ & _ & _ & Hd' & _).
  destruct Hsame as (Hall & Hrs & Hss & Htot & Hbs & Hbr & Hbst & Hrg & Hsv).
  simpl in *.
  split_and!; try done; try congruence.
  - rewrite Hrg, Hrs. apply Permutation_app; [done|apply range_map_perm].
  - rewrite Hsv, Hss. apply Permutation_app; [done|apply range_map_perm].
Qed.

(** C7, counterexample.  The same two results, aggregated by two runs
    whose loops over the region set and the service set visit the keys
    in different orders: the maps are the same, the two reports list the
    regions and the services in different orders. *)
Lemma Regions_order_differs_between_runs :
  ∃ report report',
    (runM (aggregateResults table_order table_order (λ _, 0)
             [CollectorResult.mk "ec2" "us-east-1" [blank_resource] None;
              CollectorResult.mk "s3" "eu-west-1" [blank_resource] None] 0)
          (mkWorld 0 [])).1 = Ok report ∧
    (runM (aggregateResults reversed_order reversed_order (λ _, 0)
             [CollectorResult.mk "ec2" "us-east-1" [blank_resource] None;
              CollectorResult.mk "s3" "eu-west-1" [blank_resource] None] 0)
          (mkWorld 0 [])).1 = Ok report' ∧
    Summary.Regions (ResourceCollection.Summary report)
      = ["us-east-1"; "eu-west-1"] ∧
    Summary.Regions (ResourceCollection.Summary report')
      = ["eu-west-1"; "us-east-1"] ∧
    Summary.Services (ResourceCollection.Summary report) = ["s3"; "ec2"] ∧
    Summary.Services (ResourceCollection.Summary report') = ["ec2"; "s3"] ∧
    report ≠ report'.
Proof.
  eexists _, _. split; [reflexivity|]. split; [reflexivity|].
  split_and!; [by vm_compute..|].
  intros Heq. apply (f_equal (λ r, Summary.Regions (ResourceCollection.Summary r))) in Heq.
  by vm_compute in Heq.
Qed.

(** C10.  For every list of results, the empty one included, the three
    maps of the summary are not nil; when every result has an error (or
    there is none) the total is 0 and the maps are empty. *)
Theorem aggregateResults_maps_not_nil
    (ord_regions ord_services : RangeOrder) (fold_ns : CollectorResult.t → Z)
    (results : list CollectorResult.t) (startTime : Z) (w : World) :
  ∃ report,
    (runM (aggregateResults ord_regions ord_services fold_ns results startTime) w).1
      = Ok report ∧
    let s := ResourceCollection.Summary report in
    is_nil (Summary.ByService s) = false ∧
    is_nil (Summary.ByRegion s) = false ∧
    is_nil (Summary.ByState s) = false ∧
    (Forall (λ r, is_Some (CollectorResult.Error r)) results →
     Summary.TotalResources s = 0 ∧
     Summary.ByService s = made ∅ ∧
     Summary.ByRegion s = made ∅ ∧
     Summary.ByState s = made ∅).
Proof.
  destruct (aggregateResults_run ord_regions ord_services fold_ns results startTime w)
    as (v & Hv & Hf & ->).
  eexists. split; [reflexivity|].
  destruct Hf as ((H1 & H2 & H3 & _) & _). simpl. split_and!; try done.
  intros Hall. apply (fold_results_all_failed _ _ _ Hall) in Hv.
  unfold same_data in Hv; destruct_and!. simpl in *.
  split_and!; try done. by rewrite H.
Qed.

(** C10 at a run whose only result failed. *)
Lemma aggregateResults_maps_not_nil_witness :
  ∃ report,
    (runM (aggregateResults table_order table_order (λ _, 1)
             [CollectorResult.mk "s3" "us-east-1" [] (Some "AccessDenied")] 0)
          (mkWorld 5 [])).1 = Ok report ∧
    Summary.TotalResources (ResourceCollection.Summary report) = 0 ∧
    Summary.ByService (ResourceCollection.Summary report) = made ∅.
Proof.
  destruct (aggregateResults_maps_not_nil table_order table_order (λ _, 1)
              [CollectorResult.mk "s3" "us-east-1" [] (Some "AccessDenied")] 0
              (mkWorld 5 [])) as (report & H & _ & _ & _ & Hall).
  exists report. split; [done|].
  destruct Hall as (Ht & Hs & _).
  - repeat constructor. by eexists.
  - done.
Defined.

Lemma NewOrchestrator_collectors_return cm o :
  NewOrchestrator cm = Ok o → collectors_return o.
Proof.
  intros [= <-]. intros service c ctx region w. unfold collector_of. simpl.
  intros Hc.
  repeat (rewrite lookup_insert in Hc; case_decide;
          [injection Hc as <-; simpl; eauto|]).
  by rewrite lookup_empty in Hc.
Qed.

(** C3 (as amended).  [executeCollection] neither rejects nor clamps
    the limit: the semaphore gets exactly [opts.Parallel] slots.  When
    that is at least 1, the work items are of registered services and the
    collectors return, the call is, under every scheduler and context,
    the run of its goroutines through a semaphore of [opts.Parallel]
    slots: that run ends with every goroutine done and the call returns
    its results, so it does not panic and does not block for ever.  On
    the way the scheduler is never asked about a state in which more than
    [opts.Parallel] goroutines hold a slot: a scheduler that differs from
    this one in such states only gives the same run. *)
Theorem executeCollection_positive_limit_returns
    (o : Orchestrator) (stderr : option bool) (opts : CollectOptions.t)
    (pick : Scheduler) (ctx : Context) (workItems : list workItem.t) (w : World) :
  1 ≤ CollectOptions.Parallel opts →
  collectors_return o →
  Forall (registered o) workItems →
  let start := mkTasks workItems [] [] [] ctx in
  make_chan (CollectOptions.Parallel opts) = Ok (CollectOptions.Parallel opts) ∧
  (∃ s w',
     runM (run_tasks o stderr opts pick (CollectOptions.Parallel opts)
             (potential start) start) w = (Ok s, w') ∧
     finished s = true ∧
     runM (executeCollection o stderr opts pick ctx workItems) w
       = (Ok (results s), w')) ∧
  (∀ pick',
     same_choices (CollectOptions.Parallel opts) pick pick' →
     runM (executeCollection o stderr opts pick' ctx workItems) w
     = runM (executeCollection o stderr opts pick ctx workItems) w).
Proof.
  intros Hcap Hreturn Hreg start.
  assert (Hchan : make_chan (CollectOptions.Parallel opts)
                  = Ok (CollectOptions.Parallel opts)).
  { unfold make_chan. destruct (Z.ltb_spec (CollectOptions.Parallel opts) 0); [lia|done]. }
  split; [done|]. split.
  - destruct (run_tasks_returns o stderr opts pick Hreturn
                (CollectOptions.Parallel opts) (potential start) start w)
      as (s' & w' & Hrun & Hfin & _); [done| |lia|].
    { by unfold all_registered. }
    exists s', w'. split; [done|]. split; [done|].
    unfold executeCollection. rewrite Hchan, runM_bind. simpl.
    fold start. by rewrite Hrun.
  - intros pick' Hsame. unfold executeCollection. rewrite Hchan, !runM_bind. simpl.
    fold start.
    rewrite (run_tasks_same_choices o stderr opts pick pick'
               (CollectOptions.Parallel opts) (potential start) start w Hsame);
      [done|].
    unfold len. simpl. lia.
Qed.

(** C3 at a limit of 2 and two work items. *)
Lemma executeCollection_positive_limit_returns_witness :
  ∃ o, NewOrchestrator denied_ec2 = Ok o ∧
  ∃ results w',
    runM (executeCollection o None (sample_options 2 false) (λ _, 0%nat) Background
            [workItem.mk "ec2" "us-east-1"; workItem.mk "rds" "us-east-1"])
         (mkWorld 0 []) = (Ok results, w').
Proof.
  eexists. split; [reflexivity|].
  match goal with
  | |- context [executeCollection ?o _ _ _ _ _] =>
      destruct (executeCollection_positive_limit_returns o None
                  (sample_options 2 false) (λ _, 0%nat) Background
                  [workItem.mk "ec2" "us-east-1"; workItem.mk "rds" "us-east-1"]
                  (mkWorld 0 []))
        as (_ & (s & w' & _ & _ & Hrun) & _)
  end.
  - simpl. lia.
  - by eapply NewOrchestrator_collectors_return.
  - repeat constructor; by eexists.
  - by exists (results s), w'.
Defined.

(** C3, counterexample.  A limit of -1 panics when the channel is made;
    a limit of 0 under a context that is never cancelled blocks for ever. *)
Lemma executeCollection_limit_below_one_fails :
  ∃ o, NewOrchestrator denied_ec2 = Ok o ∧
    (runM (executeCollection o None (sample_options (-1) false) (λ _, 0%nat)
             Background [workItem.mk "rds" "us-east-1"]) (mkWorld 0 [])).1
      = Panic "makechan: size out of range" ∧
    (runM (executeCollection o None (sample_options 0 false) (λ _, 0%nat)
             Background [workItem.mk "rds" "us-east-1"]) (mkWorld 0 [])).1
      = Hang.
Proof. eexists. split; [reflexivity|]. split; reflexivity. Qed.

(** C4, the run that shows the defect.  Fail-fast is on, the limit is
    1 and the context can be cancelled.  The EC2 item runs first and
    fails; nothing is cancelled, and the RDS item, which had not started,
    is then admitted, calls its collector and has its result recorded. *)
Theorem fail_fast_cancels_nothing :
  ∃ o, NewOrchestrator denied_ec2 = Ok o ∧
    runM (executeCollection o None (sample_options 1 true) (λ _, 0%nat) Pending
            [workItem.mk "ec2" "us-east-1"; workItem.mk "rds" "us-east-1"])
         (mkWorld 0 [])
    = (Ok [CollectorResult.mk "ec2" "us-east-1" [] (Some "AccessDenied");
           CollectorResult.mk "rds" "us-east-1"
             [sample_resource "rds" "us-east-1" "r-1" "active"] None],
       mkWorld 2000 [EvCollect "ec2" "us-east-1"; EvCollect "rds" "us-east-1"]).
Proof. eexists. split; reflexivity. Qed.

(** C2 (as amended).  For services that all have a collector,
    [createWorkItems] returns, service by service in the order given, one
    work item per region of that service: the regions its collector
    declares when there are any, the selected regions otherwise.  The
    result has no duplicate when the services, the selected regions and
    every declared region list have none. *)
Theorem createWorkItems_matrix
    (o : Orchestrator) (services regions : list string) :
  Forall (λ service, is_Some (collector_of o service)) services →
  ∃ items,
    createWorkItems o services regions = Ok items ∧
    items = (services ≫= (λ service,
               workItem.mk service <$> regions_for o regions service)) ∧
    (∀ service c, collector_of o service = Some c → Collector.Regions c ≠ [] →
       regions_for o regions service = Collector.Regions c) ∧
    (∀ service c, collector_of o service = Some c → Collector.Regions c = [] →
       regions_for o regions service = regions) ∧
    (NoDup services → NoDup regions →
     map_Forall (λ _ c, NoDup (Collector.Regions c)) (entries (collectors o)) →
     NoDup items).
Proof.
  intros Hall. eexists. split; [|split; [reflexivity|]].
  - unfold createWorkItems. by rewrite createWorkItems_from.
  - split; [apply regions_for_declared|]. split; [apply regions_for_selected|].
    intros Hs Hr Hc. apply NoDup_bind; [| |done].
    + intros s1 s2 item _ _ H1 H2.
      apply list_elem_of_fmap in H1 as (r1 & -> & _).
      apply list_elem_of_fmap in H2 as (r2 & [= -> _] & _). done.
    + intros service _. apply (NoDup_fmap_2 _).
      by apply NoDup_regions_for.
Qed.

(** C2 at S3 and EC2 over two selected regions. *)
Lemma createWorkItems_matrix_witness :
  ∃ o, NewOrchestrator denied_ec2 = Ok o ∧
    createWorkItems o ["s3"; "ec2"] ["eu-west-1"; "us-east-1"]
    = Ok [workItem.mk "s3" "us-east-1";
          workItem.mk "ec2" "eu-west-1"; workItem.mk "ec2" "us-east-1"] ∧
    NoDup [workItem.mk "s3" "us-east-1";
           workItem.mk "ec2" "eu-west-1"; workItem.mk "ec2" "us-east-1"].
Proof.
  eexists. split; [reflexivity|].
  match goal with
  | |- context [createWorkItems ?o _ _] =>
      destruct (createWorkItems_matrix o ["s3"; "ec2"] ["eu-west-1"; "us-east-1"])
        as (items & Hrun & Hitems & _ & _ & Hnodup)
  end.
  - repeat constructor; by eexists.
  - rewrite Hrun. subst items. split; [reflexivity|].
    apply Hnodup; compute_done.
Defined.

(** C2, counterexample.  A service requested twice passes validation
    twice and yields every one of its work items twice. *)
Lemma createWorkItems_repeats_requested_twice :
  ∃ o, NewOrchestrator denied_ec2 = Ok o ∧
    prepareServices table_order o ["ec2"; "ec2"] = (["ec2"; "ec2"], None) ∧
    createWorkItems o ["ec2"; "ec2"] ["us-east-1"]
    = Ok [workItem.mk "ec2" "us-east-1"; workItem.mk "ec2" "us-east-1"] ∧
    ¬ NoDup [workItem.mk "ec2" "us-east-1"; workItem.mk "ec2" "us-east-1"].
Proof.
  eexists. split; [reflexivity|]. split; [reflexivity|]. split; [reflexivity|].
  intros H. apply NoDup_cons in H as [H _]. apply H. left.
Qed.

(** C8.  When a requested service has no collector, [Collect] returns
    no report and the error ["invalid services: ..."] that lists, in the
    order of the request, the services without a collector.  The only
    thing it has done by then is read the clock: no region was
    discovered and no collector was called. *)
Theorem Collect_rejects_unknown_service
    (ord ord_regions ord_services : RangeOrder) (fold_ns : CollectorResult.t → Z)
    (stderr : option bool) (pick : Scheduler) (o : Orchestrator) (ctx : Context)
    (opts : CollectOptions.t) (w : World) :
  Exists (λ service, collector_of o service = None) (CollectOptions.Services opts) →
  runM (Collect ord ord_regions ord_services fold_ns stderr pick o ctx opts) w
  = (Ok (None,
         Some ("invalid services: "
               +:+ strings_Join
                     (unknown_services o (CollectOptions.Services opts)) ", ")),
     mkWorld (wall w) (log w ++ [EvClock (wall w)])).
Proof.
  intros Hex. unfold Collect. rewrite runM_bind. simpl.
  rewrite prepareServices_unknown; [done|].
  apply Exists_exists in Hex as (service & Hin & Hnone).
  intros Hnil. assert (Hs : service ∈ unknown_services o (CollectOptions.Services opts)).
  { unfold unknown_services. by apply list_elem_of_filter. }
  rewrite Hnil in Hs. by apply elem_of_nil in Hs.
Qed.

(** C8 at a request for two known and two unknown services. *)
Lemma Collect_rejects_unknown_service_witness :
  ∃ o, NewOrchestrator denied_ec2 = Ok o ∧
    runM (Collect table_order table_order table_order (λ _, 1) None (λ _, 0%nat)
            o Background
            (CollectOptions.mk ["ec2"; "iam"; "s3"; "kms"] ["us-east-1"] 12 false
               300000000000 false))
         (mkWorld 42 [])
    = (Ok (None, Some "invalid services: iam, kms"), mkWorld 42 [EvClock 42]).
Proof.
  eexists. split; [reflexivity|].
  match goal with
  | |- runM (Collect _ _ _ _ _ _ ?o _ ?opts) ?w = _ =>
      rewrite (Collect_rejects_unknown_service table_order table_order table_order
                 (λ _, 1) None (λ _, 0%nat) o Background opts w)
  end.
  - reflexivity.
  - apply Exists_cons_tl, Exists_cons_hd. reflexivity.
Defined.

(** C9 (as amended).  [ValidateRegions] asks for the regions once.
    When that succeeds it returns the requested regions that were
    discovered, in the order of the request, together with an error
    exactly when some requested region was not discovered; the error
    lists all of those.  When the discovery itself fails it returns no
    region and the error of the discovery, whatever was requested. *)
Theorem ValidateRegions_reports_invalid
    (cm : ClientManager) (ctx : Context) (regions : list string) (w : World) :
  ∃ valid err,
    runM (ValidateRegions cm ctx regions) w
    = (Ok (valid, err), mkWorld (wall w) (log w ++ [EvDescribeRegions])) ∧
    match ec2_DescribeRegions cm ctx with
    | (answer, None) =>
        let available := region_names answer in
        let invalid := filter (λ region, region ∉ available) regions in
        valid = filter (λ region, region ∈ available) regions ∧
        err = (if decide (invalid = []) then None
               else Some ("invalid regions: " +:+ strings_Join invalid ", ")) ∧
        (err ≠ None ↔ ∃ region, region ∈ regions ∧ region ∉ available)
    | (_, Some failure) =>
        valid = [] ∧
        err = Some ("failed to describe regions: " +:+ failure)
    end.
Proof.
  destruct (ec2_DescribeRegions cm ctx) as [answer [failure|]] eqn:Hanswer.
  - exists [], (Some ("failed to describe regions: " +:+ failure)).
    split; [|done]. by rewrite ValidateRegions_run, Hanswer.
  - set (available := region_names answer).
    set (invalid := filter (λ region, region ∉ available) regions).
    exists (filter (λ region, region ∈ available) regions),
           (if decide (invalid = []) then None
            else Some ("invalid regions: " +:+ strings_Join invalid ", ")).
    split; [by rewrite ValidateRegions_run, Hanswer|].
    split; [done|]. split; [done|].
    destruct (decide (invalid = [])) as [Hnil|Hne].
    + split; [done|]. intros (region & Hin & Hout).
      assert (Hr : region ∈ invalid) by (by apply list_elem_of_filter).
      rewrite Hnil in Hr. by apply elem_of_nil in Hr.
    + split; [|done]. intros _. destruct invalid as [|region l] eqn:E; [done|].
      assert (Hr : region ∈ invalid) by (rewrite E; left).
      apply list_elem_of_filter in Hr as [? ?]. eauto.
Qed.

(** C9 at two known and two unknown regions. *)
Lemma ValidateRegions_reports_invalid_witness :
  runM (ValidateRegions two_regions Background
          ["us-east-1"; "mars-1"; "eu-west-1"; "moon-2"]) (mkWorld 0 [])
  = (Ok (["us-east-1"; "eu-west-1"], Some "invalid regions: mars-1, moon-2"),
     mkWorld 0 [EvDescribeRegions]).
Proof.
  destruct (ValidateRegions_reports_invalid two_regions Background
              ["us-east-1"; "mars-1"; "eu-west-1"; "moon-2"] (mkWorld 0 []))
    as (valid & err & Hrun & Hvalid & Herr & _).
  rewrite Hrun, Hvalid, Herr. reflexivity.
Defined.

(** C9, counterexample.  In an account where ec2:DescribeRegions is
    denied, [ValidateRegions] returns an error for an empty request, in
    which no region is unknown; for a request with a region it returns
    no region at all and an error that names none. *)
Lemma ValidateRegions_error_without_invalid_region :
  runM (ValidateRegions denied_ec2 Background []) (mkWorld 0 [])
  = (Ok ([], Some "failed to describe regions: AccessDenied"),
     mkWorld 0 [EvDescribeRegions]) ∧
  runM (ValidateRegions denied_ec2 Background ["us-east-1"; "mars-1"]) (mkWorld 0 [])
  = (Ok ([], Some "failed to describe regions: AccessDenied"),
     mkWorld 0 [EvDescribeRegions]).
Proof. split; reflexivity. Qed.


(** * Further properties of the code *)

(** ** The aggregator, entry by entry *)

(** X1.  [ByService[k]] is the number of resources brought by the results
    without an error whose service is [k], and [k] is a key of the map
    exactly when there is such a result, also one that brought no
    resource.  [ByRegion] is the same with the region of the result, which
    is the region of the work item and not the [Region] field of the
    resources. *)
Theorem ByService_ByRegion_entries
    (ord_regions ord_services : RangeOrder) (fold_ns : CollectorResult.t → Z)
    (results : list CollectorResult.t) (startTime : Z) (w : World) :
  ∃ report,
    (runM (aggregateResults ord_regions ord_services fold_ns results startTime) w).1
      = Ok report ∧
    let s := ResourceCollection.Summary report in
    (∀ k, map_index 0 (Summary.ByService s) k = len (merged (of_service k results))) ∧
    (∀ k, is_Some (entries (Summary.ByService s) !! k)
          ↔ succeeded_with CollectorResult.Service k results) ∧
    (∀ k, map_index 0 (Summary.ByRegion s) k = len (merged (of_region k results))) ∧
    (∀ k, is_Some (entries (Summary.ByRegion s) !! k)
          ↔ succeeded_with CollectorResult.Region k results).
Proof.
  destruct (aggregateResults_tallied ord_regions ord_services fold_ns results
              startTime w) as (v & -> & _ & _ & Ht).
  eexists. split; [reflexivity|].
  apply new_vars_tallied_from in Ht as (Ha & Hb & Hc & Hd & _). simpl.
  by split_and!.
Qed.

(** X2.  For a state [k] that is not empty, [ByState[k]] is the number of
    resources of the report in state [k], and [k] is a key exactly when
    there is one; the empty state is never a key. *)
Theorem ByState_entries
    (ord_regions ord_services : RangeOrder) (fold_ns : CollectorResult.t → Z)
    (results : list CollectorResult.t) (startTime : Z) (w : World) :
  ∃ report,
    (runM (aggregateResults ord_regions ord_services fold_ns results startTime) w).1
      = Ok report ∧
    let byState := Summary.ByState (ResourceCollection.Summary report) in
    let resources := ResourceCollection.Resources report in
    (∀ k, k ≠ "" → map_index 0 byState k = len (in_state k resources)) ∧
    (∀ k, is_Some (entries byState !! k) ↔ k ≠ "" ∧ in_state k resources ≠ []) ∧
    entries byState !! "" = None.
Proof.
  destruct (aggregateResults_tallied ord_regions ord_services fold_ns results
              startTime w) as (v & -> & _ & Hf & Ht).
  eexists. split; [reflexivity|].
  apply new_vars_tallied_from in Ht as (_ & _ & _ & _ & He & Hf' & _).
  destruct Hf as (_ & Hall & _). simpl in *. rewrite Hall.
  split_and!.
  - intros k Hk. rewrite He. by rewrite decide_False.
  - done.
  - destruct (entries _ !! "") eqn:E; [|done].
    assert (Hs : is_Some (entries (Summary.ByState (summary v)) !! "")) by eauto.
    apply Hf' in Hs as [? _]. done.
Qed.

(** X3.  [Regions] lists, without duplicates, exactly the regions of the
    results without an error, which are the keys of [ByRegion];
    [Services] does the same for the services and [ByService]. *)
Theorem Regions_Services_distinct
    (ord_regions ord_services : RangeOrder) (fold_ns : CollectorResult.t → Z)
    (results : list CollectorResult.t) (startTime : Z) (w : World) :
  ∃ report,
    (runM (aggregateResults ord_regions ord_services fold_ns results startTime) w).1
      = Ok report ∧
    let s := ResourceCollection.Summary report in
    NoDup (Summary.Regions s) ∧
    NoDup (Summary.Services s) ∧
    (∀ k, k ∈ Summary.Regions s ↔ succeeded_with CollectorResult.Region k results) ∧
    (∀ k, k ∈ Summary.Services s ↔ succeeded_with CollectorResult.Service k results) ∧
    (∀ k, k ∈ Summary.Regions s ↔ is_Some (entries (Summary.ByRegion s) !! k)) ∧
    (∀ k, k ∈ Summary.Services s ↔ is_Some (entries (Summary.ByService s) !! k)).
Proof.
  destruct (aggregateResults_tallied ord_regions ord_services fold_ns results
              startTime w) as (v & -> & _ & Hf & Ht).
  eexists. split; [reflexivity|].
  apply new_vars_tallied_from in Ht as (_ & Hb & _ & Hd & _ & _ & Hg & Hh).
  destruct Hf as (_ & _ & _ & _ & _ & _ & _ & _ & _ & Hr & Hs). simpl in *.
  rewrite Hr, Hs. simpl.
  split_and!; try apply range_map_NoDup; intros k; rewrite range_map_elem_of.
  - apply Hg.
  - apply Hh.
  - by rewrite Hg, Hd.
  - by rewrite Hh, Hb.
Qed.

Lemma gomap_eq (m1 m2 : gomap Z) :
  is_nil m1 = false → is_nil m2 = false →
  (∀ k, is_Some (entries m1 !! k) ↔ is_Some (entries m2 !! k)) →
  (∀ k, map_index 0 m1 k = map_index 0 m2 k) →
  m1 = m2.
Proof.
  destruct m1 as [|g1], m2 as [|g2]; try done. simpl. intros _ _ Hkey Hval.
  f_equal. apply map_eq. intros k. by apply option_eq_by_default.
Qed.

(** X4.  The order of the results does not matter to the summary: on two
    lists of results that are permutations of each other, as the
    completion order of the tasks makes them, the three maps, the total
    and the error count are equal, and the resources, the error messages,
    the regions and the services are the same up to their order. *)
Theorem aggregateResults_order_irrelevant
    (ord_regions ord_services ord_regions' ord_services' : RangeOrder)
    (fold_ns fold_ns' : CollectorResult.t → Z)
    (results results' : list CollectorResult.t)
    (startTime startTime' : Z) (w w' : World) :
  results ≡ₚ results' →
  ∃ report report',
    (runM (aggregateResults ord_regions ord_services fold_ns results startTime) w).1
      = Ok report ∧
    (runM (aggregateResults ord_regions' ord_services' fold_ns' results' startTime')
       w').1 = Ok report' ∧
    let s := ResourceCollection.Summary report in
    let s' := ResourceCollection.Summary report' in
    Summary.ByService s = Summary.ByService s' ∧
    Summary.ByRegion s = Summary.ByRegion s' ∧
    Summary.ByState s = Summary.ByState s' ∧
    Summary.TotalResources s = Summary.TotalResources s' ∧
    Summary.Errors s = Summary.Errors s' ∧
    ResourceCollection.Resources report ≡ₚ ResourceCollection.Resources report' ∧
    ResourceCollection.Errors report ≡ₚ ResourceCollection.Errors report' ∧
    Summary.Regions s ≡ₚ Summary.Regions s' ∧
    Summary.Services s ≡ₚ Summary.Services s'.
Proof.
  intros Hp.
  destruct (aggregateResults_tallied ord_regions ord_services fold_ns results
              startTime w) as (v & -> & Hm & Hf & Ht).
  destruct (aggregateResults_tallied ord_regions' ord_services' fold_ns' results'
              startTime' w') as (v' & -> & Hm' & Hf' & Ht').
  eexists _, _. split; [reflexivity|]. split; [reflexivity|].
  apply new_vars_tallied_from in Ht as (Ha & Hb & Hc & Hd & He & Hg & Hrs & Hss).
  apply new_vars_tallied_from in Ht' as (Ha' & Hb' & Hc' & Hd' & He' & Hg' & Hrs' & Hss').
  destruct Hm as (M1 & M2 & M3 & _), Hm' as (M1' & M2' & M3' & _).
  destruct Hf as (_ & Hall & Herrs & Hn & _ & _ & _ & _ & _ & Hr & Hs).
  destruct Hf' as (_ & Hall' & Herrs' & Hn' & _ & _ & _ & _ & _ & Hr' & Hs').
  pose proof (merged_perm _ _ Hp) as Hmp.
  simpl in *. rewrite Hall, Hall', Herrs, Herrs', Hn, Hn', Hr, Hr', Hs, Hs'. simpl.
  split_and!.
  - apply gomap_eq; try done; intros k.
    + by rewrite Hb, Hb', (succeeded_with_perm _ _ _ _ Hp).
    + rewrite Ha, Ha'. apply len_perm, merged_perm. unfold of_service. by rewrite Hp.
  - apply gomap_eq; try done; intros k.
    + by rewrite Hd, Hd', (succeeded_with_perm _ _ _ _ Hp).
    + rewrite Hc, Hc'. apply len_perm, merged_perm. unfold of_region. by rewrite Hp.
  - assert (Hst : ∀ k, len (in_state k (merged results))
                       = len (in_state k (merged results'))).
    { intros k. apply len_perm. unfold in_state. by rewrite Hmp. }
    apply gomap_eq; try done; intros k.
    + rewrite Hg, Hg'. pose proof (Hst k) as Hk. unfold len in Hk.
      destruct (in_state k (merged results)), (in_state k (merged results'));
        simpl in Hk; try lia; split; intros [? ?]; split; done.
    + rewrite He, He'. case_decide; [done|apply Hst].
  - by apply len_perm.
  - f_equal. by apply len_perm, failures_perm.
  - done.
  - by apply failures_perm.
  - apply NoDup_Permutation; try apply range_map_NoDup. intros k.
    by rewrite !range_map_elem_of, Hrs, Hrs', (succeeded_with_perm _ _ _ _ Hp).
  - apply NoDup_Permutation; try apply range_map_NoDup. intros k.
    by rewrite !range_map_elem_of, Hss, Hss', (succeeded_with_perm _ _ _ _ Hp).
Qed.

(** X4 at two results that completed in either order. *)
Lemma aggregateResults_order_irrelevant_witness :
  ∃ report report',
    (runM (aggregateResults table_order table_order (λ _, 1)
             [CollectorResult.mk "ec2" "us-east-1" [blank_resource] None;
              CollectorResult.mk "s3" "us-east-1" [] (Some "AccessDenied")] 0)
          (mkWorld 5 [])).1 = Ok report ∧
    (runM (aggregateResults table_order table_order (λ _, 1)
             [CollectorResult.mk "s3" "us-east-1" [] (Some "AccessDenied");
              CollectorResult.mk "ec2" "us-east-1" [blank_resource] None] 0)
          (mkWorld 9 [])).1 = Ok report' ∧
    Summary.ByService (ResourceCollection.Summary report)
    = Summary.ByService (ResourceCollection.Summary report').
Proof.
  destruct (aggregateResults_order_irrelevant table_order table_order
              table_order table_order (λ _, 1) (λ _, 1)
              [CollectorResult.mk "ec2" "us-east-1" [blank_resource] None;
               CollectorResult.mk "s3" "us-east-1" [] (Some "AccessDenied")]
              [CollectorResult.mk "s3" "us-east-1" [] (Some "AccessDenied");
               CollectorResult.mk "ec2" "us-east-1" [blank_resource] None]
              0 0 (mkWorld 5 []) (mkWorld 9 []) (perm_swap _ _ _))
    as (report & report' & H & H' & Hs & _).
  by exists report, report'.
Defined.

(** ** The executor *)

(** X5.  The semaphore bounds the collector calls in flight: in every
    state the goroutines of [executeCollection] can reach, at most as
    many of them hold a slot as the channel has capacity. *)
Theorem holding_within_capacity
    (o : Orchestrator) (stderr : option bool) (opts : CollectOptions.t)
    (capacity : Z) (ctx : Context) (workItems : list workItem.t)
    (w w' : World) (s : Tasks) :
  make_chan (CollectOptions.Parallel opts) = Ok capacity →
  rtc (step o stderr opts capacity) (mkTasks workItems [] [] [] ctx, w) (s, w') →
  len (holding s) ≤ capacity.
Proof.
  unfold make_chan.
  destruct (Z.ltb_spec (CollectOptions.Parallel opts) 0) as [|Hcap]; [done|].
  intros [= <-] Hreach.
  apply reachable_keeps in Hreach as (Hbound & _). apply Hbound.
  unfold len. simpl. lia.
Qed.

(** X5 at a limit of 1: of two goroutines that are started, one got the slot. *)
Lemma holding_within_capacity_witness :
  len (holding (mkTasks [] [workItem.mk "rds" "us-east-1"]
                  [workItem.mk "ec2" "us-east-1"] [] Background)) ≤ 1.
Proof.
  eapply (holding_within_capacity
            {| clientManager := denied_ec2; collectors := make_map |}
            None (sample_options 1 false) 1 Background
            [workItem.mk "ec2" "us-east-1"; workItem.mk "rds" "us-east-1"]
            (mkWorld 0 []) (mkWorld 0 [])); [reflexivity|].
  eapply rtc_l;
    [apply (step_perform _ _ _ _ Go); [by apply elem_of_enabled|reflexivity]|].
  eapply rtc_l;
    [apply (step_perform _ _ _ _ Go); [by apply elem_of_enabled|reflexivity]|].
  eapply rtc_l;
    [apply (step_perform _ _ _ _ (Acquire 0));
       [apply elem_of_enabled; unfold len; simpl; lia|reflexivity]|].
  apply rtc_refl.
Defined.

(** X6.  Every result of [executeCollection] answers one of the work
    items, and no work item is answered more often than it was given;
    under a context that is never cancelled the results answer exactly
    the work items, in some order. *)
Theorem executeCollection_results_accounted
    (o : Orchestrator) (stderr : option bool) (opts : CollectOptions.t)
    (pick : Scheduler) (ctx : Context) (workItems : list workItem.t)
    (w w' : World) (results : list CollectorResult.t) :
  runM (executeCollection o stderr opts pick ctx workItems) w = (Ok results, w') →
  item_of <$> results ⊆+ workItems ∧
  (ctx = Background → item_of <$> results ≡ₚ workItems).
Proof.
  unfold executeCollection. rewrite runM_bind.
  destruct (make_chan _) as [capacity| |]; [|done..]. simpl.
  destruct (runM (run_tasks _ _ _ _ _ _ _) w) as [[s| |] w1] eqn:Hrun; [|done..].
  intros [= <- <-].
  apply run_tasks_reachable in Hrun as [Hreach Hfin].
  apply reachable_keeps in Hreach as (_ & Hsub & Hbg).
  unfold accounted in *. simpl in *. rewrite !app_nil_r in *.
  unfold finished in Hfin.
  destruct (unstarted s), (blocked s), (holding s); try done. simpl in *.
  split; [done|]. intros Hc. by destruct (Hbg Hc).
Qed.

(** X6 at two work items under a limit of 1. *)
Lemma executeCollection_results_accounted_witness :
  ∃ o, NewOrchestrator denied_ec2 = Ok o ∧
    item_of <$> [CollectorResult.mk "ec2" "us-east-1" [] (Some "AccessDenied");
                 CollectorResult.mk "rds" "us-east-1"
                   [sample_resource "rds" "us-east-1" "r-1" "active"] None]
    ≡ₚ [workItem.mk "ec2" "us-east-1"; workItem.mk "rds" "us-east-1"].
Proof.
  match eval vm_compute in (NewOrchestrator denied_ec2) with
  | Ok ?o =>
      exists o; split; [reflexivity|];
      refine (proj2 (executeCollection_results_accounted o None
                       (sample_options 1 true) (λ _, 0%nat) Background
                       [workItem.mk "ec2" "us-east-1"; workItem.mk "rds" "us-east-1"]
                       (mkWorld 0 [])
                       (mkWorld 2000 [EvCollect "ec2" "us-east-1";
                                      EvCollect "rds" "us-east-1"])
                       _ _) eq_refl);
      reflexivity
  end.
Defined.

(** X7.  With a limit of 0 and a context that is cancelled or gets
    cancelled (a deadline), [executeCollection] returns no result at all:
    every goroutine leaves at the [select], no collector is called, and
    this under every scheduler. *)
Theorem executeCollection_no_slot_skips_all
    (o : Orchestrator) (stderr : option bool) (opts : CollectOptions.t)
    (pick : Scheduler) (ctx : Context) (workItems : list workItem.t) (w : World) :
  CollectOptions.Parallel opts = 0 →
  ctx ≠ Background →
  runM (executeCollection o stderr opts pick ctx workItems) w = (Ok [], w).
Proof.
  apply executeCollection_no_slot_run.
Qed.

(** X7 under a deadline. *)
Lemma executeCollection_no_slot_skips_all_witness :
  ∃ o, NewOrchestrator denied_ec2 = Ok o ∧
    runM (executeCollection o None (sample_options 0 false) (λ _, 0%nat) Pending
            [workItem.mk "ec2" "us-east-1"; workItem.mk "rds" "us-east-1"])
         (mkWorld 0 []) = (Ok [], mkWorld 0 []).
Proof.
  eexists. split; [reflexivity|].
  by apply executeCollection_no_slot_skips_all.
Defined.

(** X8 at one work item. *)
Lemma executeCollection_no_slot_hangs_witness :
  ∃ o, NewOrchestrator denied_ec2 = Ok o ∧
    (runM (executeCollection o (Some true) (sample_options 0 false) (λ _, 3%nat)
             Background [workItem.mk "rds" "us-east-1"]) (mkWorld 0 [])).1 = Hang.
Proof.
  eexists. split; [reflexivity|].
  by apply executeCollection_no_slot_hangs.
Defined.

(** ** Services, regions and the top-level call *)

(** X9.  [createWorkItems] does not check its services: when one of them
    has no collector, the lookup yields the nil interface and the call of
    [Regions()] on it panics, whatever the regions and the other services. *)
Theorem createWorkItems_unregistered_panics
    (o : Orchestrator) (services regions : list string) :
  Exists (λ service, collector_of o service = None) services →
  createWorkItems o services regions
  = Panic "invalid memory address or nil pointer dereference".
Proof. intros Hex. by apply createWorkItems_panics_from. Qed.

(** X9 at a service nobody registered, after two that are. *)
Lemma createWorkItems_unregistered_panics_witness :
  ∃ o, NewOrchestrator denied_ec2 = Ok o ∧
    createWorkItems o ["ec2"; "s3"; "iam"] ["us-east-1"]
    = Panic "invalid memory address or nil pointer dereference".
Proof.
  eexists. split; [reflexivity|].
  apply createWorkItems_unregistered_panics.
  apply Exists_cons_tl, Exists_cons_tl, Exists_cons_hd. reflexivity.
Defined.

(** X10.  A request that is not empty and names registered services only
    is returned by [prepareServices] as it is, in the order of the
    request and with its repetitions, without an error. *)
Theorem prepareServices_keeps_request
    (ord : RangeOrder) (o : Orchestrator) (services : list string) :
  services ≠ [] →
  Forall (λ service, is_Some (collector_of o service)) services →
  prepareServices ord o services = (services, None).
Proof.
  intros Hne Hall. apply unknown_services_nil in Hall.
  destruct (prepareServices_ok ord o services Hall) as (valid & -> & _ & Hv).
  by rewrite Hv.
Qed.

(** X10 at a request that repeats a service. *)
Lemma prepareServices_keeps_request_witness :
  ∃ o, NewOrchestrator denied_ec2 = Ok o ∧
    prepareServices table_order o ["s3"; "ec2"; "s3"] = (["s3"; "ec2"; "s3"], None).
Proof.
  eexists. split; [reflexivity|].
  apply prepareServices_keeps_request; [done|].
  repeat constructor; by eexists.
Defined.

(** X11.  [GetAvailableServices] returns the registered service names in
    increasing byte-wise order, each once, and the same list whatever the
    order in which the map of collectors is iterated. *)
Theorem GetAvailableServices_sorted
    (ord ord' : RangeOrder) (o : Orchestrator) :
  Sorted string_le (GetAvailableServices ord o) ∧
  NoDup (GetAvailableServices ord o) ∧
  (∀ service, service ∈ GetAvailableServices ord o
              ↔ is_Some (collector_of o service)) ∧
  GetAvailableServices ord o = GetAvailableServices ord' o.
Proof.
  split_and!.
  - apply sort_Strings_Sorted.
  - rewrite GetAvailableServices_perm. apply range_map_NoDup.
  - apply GetAvailableServices_elem_of.
  - unfold GetAvailableServices. apply sort_Strings_unique.
    rewrite !foldl_snoc. simpl. apply range_map_perm.
Qed.

(** X12.  When DescribeRegions fails, [Collect] fails with that error
    wrapped in ["failed to describe regions: "], whether regions were
    requested or are to be discovered; it has then read the clock and
    called DescribeRegions once, and no collector. *)
Theorem Collect_discovery_failure
    (ord ord_regions ord_services : RangeOrder) (fold_ns : CollectorResult.t → Z)
    (stderr : option bool) (pick : Scheduler) (o : Orchestrator) (ctx : Context)
    (opts : CollectOptions.t) (w : World) (answer : list (option string))
    (err : string) :
  unknown_services o (CollectOptions.Services opts) = [] →
  ec2_DescribeRegions (clientManager o) ctx = (answer, Some err) →
  runM (Collect ord ord_regions ord_services fold_ns stderr pick o ctx opts) w
  = (Ok (None, Some ("failed to describe regions: " +:+ err)),
     mkWorld (wall w) (log w ++ [EvClock (wall w); EvDescribeRegions])).
Proof.
  intros Hs Hd. unfold Collect. rewrite runM_bind. simpl.
  destruct (prepareServices_ok ord o _ Hs) as (valid & -> & _).
  rewrite runM_bind, prepareRegions_run, Hd. simpl.
  by rewrite <- app_assoc.
Qed.

(** X12 at an account that may not call EC2. *)
Lemma Collect_discovery_failure_witness :
  ∃ o, NewOrchestrator denied_ec2 = Ok o ∧
    runM (Collect table_order table_order table_order (λ _, 1) None (λ _, 0%nat)
            o Background
            (CollectOptions.mk ["s3"] ["us-east-1"] 12 false 300000000000 false))
         (mkWorld 42 [])
    = (Ok (None, Some "failed to describe regions: AccessDenied"),
       mkWorld 42 [EvClock 42; EvDescribeRegions]).
Proof.
  eexists. split; [reflexivity|].
  match goal with
  | |- runM (Collect _ _ _ _ _ _ ?o _ ?opts) ?w = _ =>
      rewrite (Collect_discovery_failure table_order table_order table_order
                 (λ _, 1) None (λ _, 0%nat) o Background opts w [] "AccessDenied")
  end; reflexivity.
Defined.

(** X13.  When a requested region is not among the discovered ones,
    [Collect] returns no report and the error ["invalid regions: ..."]
    listing the unknown regions in the order of the request; the valid
    regions of the request are dropped with it, and no collector is
    called. *)
Theorem Collect_rejects_unknown_region
    (ord ord_regions ord_services : RangeOrder) (fold_ns : CollectorResult.t → Z)
    (stderr : option bool) (pick : Scheduler) (o : Orchestrator) (ctx : Context)
    (opts : CollectOptions.t) (w : World) (answer : list (option string)) :
  unknown_services o (CollectOptions.Services opts) = [] →
  ec2_DescribeRegions (clientManager o) ctx = (answer, None) →
  Exists (λ region, region ∉ region_names answer) (CollectOptions.Regions opts) →
  runM (Collect ord ord_regions ord_services fold_ns stderr pick o ctx opts) w
  = (Ok (None,
         Some ("invalid regions: "
               +:+ strings_Join
                     (filter (λ region, region ∉ region_names answer)
                        (CollectOptions.Regions opts)) ", ")),
     mkWorld (wall w) (log w ++ [EvClock (wall w); EvDescribeRegions])).
Proof.
  intros Hs Hd Hex. unfold Collect. rewrite runM_bind. simpl.
  destruct (prepareServices_ok ord o _ Hs) as (valid & -> & _).
  rewrite runM_bind, prepareRegions_run, Hd.
  apply Exists_exists in Hex as (region & Hin & Hout).
  rewrite decide_False by (intros Hnil; rewrite Hnil in Hin; by apply elem_of_nil in Hin).
  cbv zeta. rewrite decide_False.
  - simpl. by rewrite <- app_assoc.
  - intros Hnil.
    assert (Hr : region ∈ filter (λ region, region ∉ region_names answer)
                            (CollectOptions.Regions opts))
      by (by apply list_elem_of_filter).
    rewrite Hnil in Hr. by apply elem_of_nil in Hr.
Qed.

(** X13 at a request for one known and one unknown region. *)
Lemma Collect_rejects_unknown_region_witness :
  ∃ o, NewOrchestrator two_regions = Ok o ∧
    runM (Collect table_order table_order table_order (λ _, 1) None (λ _, 0%nat)
            o Background
            (CollectOptions.mk ["s3"] ["eu-west-1"; "mars-1"] 12 false
               300000000000 false))
         (mkWorld 42 [])
    = (Ok (None, Some "invalid regions: mars-1"),
       mkWorld 42 [EvClock 42; EvDescribeRegions]).
Proof.
  eexists. split; [reflexivity|].
  match goal with
  | |- runM (Collect _ _ _ _ _ _ ?o _ ?opts) ?w = _ =>
      rewrite (Collect_rejects_unknown_region table_order table_order table_order
                 (λ _, 1) None (λ _, 0%nat) o Background opts w
                 [Some "us-east-1"; None; Some "eu-west-1"])
  end.
  - reflexivity.
  - reflexivity.
  - reflexivity.
  - apply Exists_cons_tl, Exists_cons_hd. compute_done.
Defined.

(** X14.  A valid configuration never fails as a whole: when every
    requested service is registered, the regions are discovered and every
    requested region is among them, the limit is at least 1 and the
    collectors return, [Collect] returns a report and a nil error, under
    every scheduler and also when collectors fail; their errors are in the
    report, whose counts agree with its lists. *)
Theorem Collect_returns_report
    (ord ord_regions ord_services : RangeOrder) (fold_ns : CollectorResult.t → Z)
    (stderr : option bool) (pick : Scheduler) (o : Orchestrator) (ctx : Context)
    (opts : CollectOptions.t) (w : World) (answer : list (option string)) :
  unknown_services o (CollectOptions.Services opts) = [] →
  ec2_DescribeRegions (clientManager o) ctx = (answer, None) →
  Forall (λ region, region ∈ region_names answer) (CollectOptions.Regions opts) →
  1 ≤ CollectOptions.Parallel opts →
  collectors_return o →
  ∃ report w',
    runM (Collect ord ord_regions ord_services fold_ns stderr pick o ctx opts) w
      = (Ok (Some report, None), w') ∧
    Summary.TotalResources (ResourceCollection.Summary report)
      = len (ResourceCollection.Resources report) ∧
    Summary.Errors (ResourceCollection.Summary report)
      = len (ResourceCollection.Errors report).
Proof.
  intros Hs Hd Hr Hcap Hreturn. unfold Collect. rewrite runM_bind.
  cbn [runM time_Now].
  destruct (prepareServices_ok ord o _ Hs) as (valid & -> & Hvalid & _).
  rewrite runM_bind, prepareRegions_run, Hd.
  set (regions := CollectOptions.Regions opts) in *.
  assert (Hprep : (if decide (regions = []) then (region_names answer, None)
                   else
                     let invalid :=
                       filter (λ region, region ∉ region_names answer) regions in
                     (filter (λ region, region ∈ region_names answer) regions,
                      if decide (invalid = []) then None
                      else Some ("invalid regions: " +:+ strings_Join invalid ", ")))
                  = (if decide (regions = []) then region_names answer else regions,
                     @None string)).
  { case_decide; [done|]. cbv zeta. rewrite filter_all by done.
    rewrite decide_True; [done|].
    clear -Hr. induction Hr as [|x l Hx _ IH]; [done|].
    rewrite filter_cons_False by tauto. done. }
  rewrite Hprep. cbv beta iota.
  set (selected := if decide (regions = []) then region_names answer else regions).
  rewrite runM_bind. unfold createWorkItems.
  rewrite createWorkItems_from by done. cbn [runM liftR app].
  set (items := valid ≫= _).
  set (w1 := mkWorld _ _).
  destruct (executeCollection_returns o stderr opts pick ctx items w1 Hcap Hreturn)
    as (results & w2 & Hexec).
  { apply work_matrix_registered. done. }
  rewrite runM_bind, Hexec.
  destruct (aggregateResults_run ord_regions ord_services fold_ns results (wall w) w2)
    as (v & _ & Hf & Hagg).
  rewrite runM_bind, Hagg. cbn [runM mret M_ret].
  eexists _, _. split; [reflexivity|].
  destruct Hf as (_ & _ & Hb & Hc & _). simpl in *. rewrite Hb, Hc.
  split; [done|]. unfold len. simpl. lia.
Qed.

(** X14 at the registered services of an account with two regions. *)
Lemma Collect_returns_report_witness :
  ∃ o, NewOrchestrator two_regions = Ok o ∧
  ∃ report w',
    runM (Collect table_order table_order table_order (λ _, 1) None (λ _, 0%nat)
            o Pending
            (CollectOptions.mk ["s3"; "ec2"] ["eu-west-1"] 2 true 300000000000 true))
         (mkWorld 42 []) = (Ok (Some report, None), w').
Proof.
  match eval vm_compute in (NewOrchestrator two_regions) with
  | Ok ?o =>
      exists o; split; [reflexivity|];
      destruct (Collect_returns_report table_order table_order table_order
                  (λ _, 1) None (λ _, 0%nat) o Pending
                  (CollectOptions.mk ["s3"; "ec2"] ["eu-west-1"] 2 true
                     300000000000 true)
                  (mkWorld 42 []) [Some "us-east-1"; None; Some "eu-west-1"])
        as (report & w' & Hrun & _);
      [reflexivity|reflexivity|apply Forall_singleton; compute_done|simpl; lia
      |apply (NewOrchestrator_collectors_return two_regions); reflexivity
      |by exists report, w']
  end.
Defined.

(** X15.  Whenever [Collect] returns, it returns either a report and a
    nil error or no report and an error, never both and never neither. *)
Theorem Collect_report_xor_error
    (ord ord_regions ord_services : RangeOrder) (fold_ns : CollectorResult.t → Z)
    (stderr : option bool) (pick : Scheduler) (o : Orchestrator) (ctx : Context)
    (opts : CollectOptions.t) (w w' : World)
    (report : option ResourceCollection.t) (err : option string) :
  runM (Collect ord ord_regions ord_services fold_ns stderr pick o ctx opts) w
    = (Ok (report, err), w') →
  (is_Some report ∧ err = None) ∨ (report = None ∧ is_Some err).
Proof.
  unfold Collect. rewrite runM_bind. cbn [runM time_Now].
  destruct (prepareServices ord o _) as [services [e|]].
  - cbn [runM mret M_ret]. intros [= <- <- _]. right. eauto.
  - rewrite runM_bind.
    destruct (runM (prepareRegions _ _ _) _) as [[[regions [e|]]| |] w1]; try done.
    + cbn [runM mret M_ret]. intros [= <- <- _]. right. eauto.
    + rewrite runM_bind. cbn [runM liftR].
      destruct (createWorkItems _ _ _) as [items| |]; try done.
      rewrite runM_bind.
      destruct (runM (executeCollection _ _ _ _ _ _) _) as [[results| |] w2];
        try done.
      rewrite runM_bind.
      destruct (runM (aggregateResults _ _ _ _ _) _) as [[collection| |] w3];
        try done.
      cbn [runM mret M_ret]. intros [= <- <- _]. left. eauto.
Qed.

(** X15 at a request for an unknown service. *)
Lemma Collect_report_xor_error_witness :
  (is_Some (@None ResourceCollection.t) ∧ Some "invalid services: iam" = None)
  ∨ (@None ResourceCollection.t = None ∧ is_Some (Some "invalid services: iam")).
Proof.
  match eval vm_compute in (NewOrchestrator denied_ec2) with
  | Ok ?o =>
      refine (Collect_report_xor_error table_order table_order table_order
                (λ _, 1) None (λ _, 0%nat) o Background
                (CollectOptions.mk ["iam"] [] 12 false 300000000000 false)
                (mkWorld 42 []) (mkWorld 42 [EvClock 42]) None
                (Some "invalid services: iam") _);
      reflexivity
  end.
Defined.

(** X18.  With a limit of 0 and a context that is cancelled or gets
    cancelled, a valid configuration makes [Collect] return an empty
    report and a nil error: no collector was called, and neither the
    report nor the error says that nothing was collected. *)
Theorem Collect_no_slot_empty_report
    (ord ord_regions ord_services : RangeOrder) (fold_ns : CollectorResult.t → Z)
    (stderr : option bool) (pick : Scheduler) (o : Orchestrator) (ctx : Context)
    (opts : CollectOptions.t) (w : World) (answer : list (option string)) :
  unknown_services o (CollectOptions.Services opts) = [] →
  ec2_DescribeRegions (clientManager o) ctx = (answer, None) →
  Forall (λ region, region ∈ region_names answer) (CollectOptions.Regions opts) →
  CollectOptions.Parallel opts = 0 →
  ctx ≠ Background →
  ∃ report,
    runM (Collect ord ord_regions ord_services fold_ns stderr pick o ctx opts) w
      = (Ok (Some report, None),
         mkWorld (wall w)
           (log w ++ [EvClock (wall w); EvDescribeRegions; EvClock (wall w)])) ∧
    ResourceCollection.Resources report = [] ∧
    ResourceCollection.Errors report = [] ∧
    Summary.TotalResources (ResourceCollection.Summary report) = 0 ∧
    Summary.Errors (ResourceCollection.Summary report) = 0.
Proof.
  intros Hs Hd Hr Hcap Hctx.
  destruct (Collect_valid_config ord ord_regions ord_services fold_ns stderr pick
              o ctx opts w answer Hs Hd Hr) as (items & _ & ->).
  rewrite executeCollection_no_slot_run by done.
  destruct (aggregateResults_run ord_regions ord_services fold_ns [] (wall w)
              (mkWorld (wall w) (log w ++ [EvClock (wall w); EvDescribeRegions])))
    as (v & Hv & _ & ->).
  injection Hv as <-.
  exists (finish ord_regions ord_services (new_vars (wall w - wall w))).
  split; [|done].
  cbn [elapsed foldr wall log]. do 2 f_equal; [lia|]. by rewrite <- app_assoc.
Qed.

(** X18 under a deadline. *)
Lemma Collect_no_slot_empty_report_witness :
  ∃ o, NewOrchestrator two_regions = Ok o ∧
  ∃ report w',
    runM (Collect table_order table_order table_order (λ _, 1) None (λ _, 0%nat)
            o Pending
            (CollectOptions.mk ["s3"; "ec2"] ["eu-west-1"] 0 false 300000000000 false))
         (mkWorld 42 []) = (Ok (Some report, None), w') ∧
    ResourceCollection.Resources report = [] ∧
    ResourceCollection.Errors report = [].
Proof.
  match eval vm_compute in (NewOrchestrator two_regions) with
  | Ok ?o =>
      exists o; split; [reflexivity|];
      destruct (Collect_no_slot_empty_report table_order table_order table_order
                  (λ _, 1) None (λ _, 0%nat) o Pending
                  (CollectOptions.mk ["s3"; "ec2"] ["eu-west-1"] 0 false
                     300000000000 false)
                  (mkWorld 42 []) [Some "us-east-1"; None; Some "eu-west-1"])
        as (report & Hrun & Hres & Herr & _);
      [reflexivity|reflexivity|apply Forall_singleton; compute_done|reflexivity
      |done|by eexists report, _]
  end.
Defined.

(** X19.  [Collect] passes the limit on as it is: with a negative limit
    a valid configuration makes it panic when the semaphore is made, after
    the regions were discovered and before any collector is called. *)
Theorem Collect_negative_limit_panics
    (ord ord_regions ord_services : RangeOrder) (fold_ns : CollectorResult.t → Z)
    (stderr : option bool) (pick : Scheduler) (o : Orchestrator) (ctx : Context)
    (opts : CollectOptions.t) (w : World) (answer : list (option string)) :
  unknown_services o (CollectOptions.Services opts) = [] →
  ec2_DescribeRegions (clientManager o) ctx = (answer, None) →
  Forall (λ region, region ∈ region_names answer) (CollectOptions.Regions opts) →
  CollectOptions.Parallel opts < 0 →
  runM (Collect ord ord_regions ord_services fold_ns stderr pick o ctx opts) w
  = (Panic "makechan: size out of range",
     mkWorld (wall w) (log w ++ [EvClock (wall w); EvDescribeRegions])).
Proof.
  intros Hs Hd Hr Hcap.
  destruct (Collect_valid_config ord ord_regions ord_services fold_ns stderr pick
              o ctx opts w answer Hs Hd Hr) as (items & _ & ->).
  unfold executeCollection, make_chan. rewrite runM_bind.
  destruct (Z.ltb_spec (CollectOptions.Parallel opts) 0); [done|lia].
Qed.

(** X19 at a limit of -1. *)
Lemma Collect_negative_limit_panics_witness :
  ∃ o, NewOrchestrator two_regions = Ok o ∧
    runM (Collect table_order table_order table_order (λ _, 1) None (λ _, 0%nat)
            o Background
            (CollectOptions.mk [] [] (-1) false 300000000000 false))
         (mkWorld 42 [])
    = (Panic "makechan: size out of range",
       mkWorld 42 [EvClock 42; EvDescribeRegions]).
Proof.
  match eval vm_compute in (NewOrchestrator two_regions) with
  | Ok ?o =>
      exists o; split; [reflexivity|];
      apply (Collect_negative_limit_panics table_order table_order table_order
               (λ _, 1) None (λ _, 0%nat) o Background
               (CollectOptions.mk [] [] (-1) false 300000000000 false)
               (mkWorld 42 []) [Some "us-east-1"; None; Some "eu-west-1"]);
      [reflexivity|reflexivity|constructor|simpl; lia]
  end.
Defined.

(** ** The S3 collector *)

Lemma convertBucket_of_bucket bucket :
  ∃ x, convertBucket bucket = Ok x ∧ of_bucket bucket x.
Proof.
  destruct bucket as [[name|] [created|]]; eexists; (split; [reflexivity|]);
    unfold of_bucket; simpl; split_and!; try done.
  all: by rewrite insert_empty.
Qed.

Lemma S3_convert_all buckets acc :
  ∃ resources,
    for_range buckets
      (λ resources bucket, resource ← convertBucket bucket; Ok (resources ++ [resource]))
      acc = Ok (acc ++ resources) ∧
    Forall2 of_bucket buckets resources.
Proof.
  revert acc. induction buckets as [|b l IH]; intros acc.
  - exists []. split; [by rewrite app_nil_r|constructor].
  - cbn [for_range]. destruct (convertBucket_of_bucket b) as (x & -> & Hx).
    cbn [mbind Result_bind]. destruct (IH (acc ++ [x])) as (rs & -> & Hrs).
    exists (x :: rs). split; [by rewrite <- app_assoc|by constructor].
Qed.

(** X16.  When ListBuckets succeeds, the S3 collector returns one
    resource per bucket, in the order of the answer and whatever region it
    was asked for: service ["s3"], region ["global"], type ["bucket"],
    state ["active"], the bucket name as id and name (empty for a bucket
    without a name), no tags, and an [Extra] map that holds the name under
    ["bucketName"] when there is one. *)
Theorem S3Collector_Collect_resources
    (s3_ListBuckets : Context → list Bucket.t * option error)
    (ctx : Context) (region : string) (buckets : list Bucket.t) :
  s3_ListBuckets ctx = (buckets, None) →
  ∃ resources,
    S3Collector_Collect s3_ListBuckets ctx region = Ok (resources, None) ∧
    Forall2 of_bucket buckets resources.
Proof.
  intros Hlist. unfold S3Collector_Collect. rewrite Hlist.
  destruct (S3_convert_all buckets []) as (resources & -> & Hall).
  by exists resources.
Qed.

(** X16 at three buckets. *)
Lemma S3Collector_Collect_resources_witness :
  ∃ resources,
    S3Collector_Collect three_buckets Pending "eu-west-1" = Ok (resources, None) ∧
    Resource.ID <$> resources = ["logs"; ""; "assets"].
Proof.
  destruct (S3Collector_Collect_resources three_buckets Pending "eu-west-1" _ eq_refl)
    as (resources & Hrun & _).
  exists resources. split; [done|].
  vm_compute in Hrun. by injection Hrun as <-.
Defined.

(** X17.  The buckets are counted under the region of the work item:
    aggregating the result of the S3 work item for [region] gives
    [ByRegion[region]] the number of buckets, although every resource
    says its region is ["global"], and ["global"] is no key of [ByRegion]
    unless the work item was for it.  All buckets count as ["active"], so
    here the values of [ByState] do sum to the total. *)
Theorem S3_buckets_counted_under_work_item_region
    (s3_ListBuckets : Context → list Bucket.t * option error)
    (ctx : Context) (region : string) (buckets : list Bucket.t)
    (ord_regions ord_services : RangeOrder) (fold_ns : CollectorResult.t → Z)
    (startTime : Z) (w : World) :
  s3_ListBuckets ctx = (buckets, None) →
  ∃ resources report,
    S3Collector_Collect s3_ListBuckets ctx region = Ok (resources, None) ∧
    (runM (aggregateResults ord_regions ord_services fold_ns
             [CollectorResult.mk "s3" region resources None] startTime) w).1
      = Ok report ∧
    let s := ResourceCollection.Summary report in
    ResourceCollection.Resources report = resources ∧
    Forall (λ x, Resource.Region x = "global") (ResourceCollection.Resources report) ∧
    Summary.TotalResources s = len buckets ∧
    map_index 0 (Summary.ByRegion s) region = len buckets ∧
    (region ≠ "global" → entries (Summary.ByRegion s) !! "global" = None) ∧
    map_index 0 (Summary.ByState s) "active" = len buckets ∧
    sum_values (Summary.ByState s) = Summary.TotalResources s.
Proof.
  intros Hlist. unfold S3Collector_Collect. rewrite Hlist.
  destruct (S3_convert_all buckets []) as (resources & -> & Hall).
  cbn [mbind Result_bind app].
  set (r := CollectorResult.mk "s3" region resources None).
  destruct (aggregateResults_tallied ord_regions ord_services fold_ns [r]
              startTime w) as (v & Hrun & _ & Hf & Ht).
  exists resources, (finish ord_regions ord_services v).
  split; [reflexivity|]. fold r. rewrite Hrun. split; [reflexivity|].
  assert (Hlen : len resources = len buckets).
  { unfold len. by rewrite (Forall2_length _ _ _ Hall). }
  assert (Hglobal : Forall (λ x, Resource.Region x = "global") resources).
  { clear -Hall. induction Hall as [|b x bs xs Hx _ IH]; constructor; [|done].
    apply Hx. }
  assert (Hactive : Forall (λ x, Resource.State x = "active") resources).
  { clear -Hall. induction Hall as [|b x bs xs Hx _ IH]; constructor; [|done].
    apply Hx. }
  assert (Hmerged : merged [r] = resources) by (by rewrite merged_singleton).
  assert (Hregion : of_region region [r] = [r]).
  { unfold of_region. by rewrite filter_cons_True. }
  assert (Hstates : filter (λ x, has_state x = true) resources = resources).
  { apply filter_all. eapply Forall_impl; [apply Hactive|].
    intros x Hx. unfold has_state. by rewrite Hx. }
  destruct Hf as (_ & Hres & _ & _ & _ & _ & Hsum & _).
  destruct Ht as (_ & _ & Hbr & Hkr & Hbs & _).
  rewrite Hmerged in Hres, Hsum, Hbs. rewrite Hstates in Hsum.
  cbn [finish ResourceCollection.Summary ResourceCollection.Resources
       Summary.TotalResources Summary.ByRegion Summary.ByState].
  rewrite Hres. cbn [new_vars allResources app].
  split_and!; try done.
  - rewrite Hbr, Hregion, Hmerged. simpl. rewrite lookup_empty. simpl. lia.
  - intros Hne. destruct (entries _ !! "global") eqn:E; [|done].
    assert (Hs : is_Some (entries (Summary.ByRegion (summary v)) !! "global")) by eauto.
    apply Hkr in Hs as [Hs|(x & Hx & _ & Hk)].
    + simpl in Hs. rewrite lookup_empty in Hs. by destruct Hs.
    + apply list_elem_of_singleton in Hx as ->. done.
  - rewrite Hbs. simpl. rewrite lookup_empty. simpl. unfold in_state.
    rewrite filter_all by done. lia.
Qed.

(** X17 at three buckets listed for the work item of us-east-1. *)
Lemma S3_buckets_counted_under_work_item_region_witness :
  ∃ resources report,
    S3Collector_Collect three_buckets Background "us-east-1" = Ok (resources, None) ∧
    (runM (aggregateResults table_order table_order (λ _, 1)
             [CollectorResult.mk "s3" "us-east-1" resources None] 0)
          (mkWorld 7 [])).1 = Ok report ∧
    map_index 0 (Summary.ByRegion (ResourceCollection.Summary report)) "us-east-1" = 3 ∧
    entries (Summary.ByRegion (ResourceCollection.Summary report)) !! "global" = None.
Proof.
  destruct (S3_buckets_counted_under_work_item_region three_buckets Background
              "us-east-1" _ table_order table_order (λ _, 1) 0 (mkWorld 7 []) eq_refl)
    as (resources & report & Hc & Hrun & _ & _ & _ & Hr & Hg & _).
  exists resources, report. split_and!; try done. by apply Hg.
Defined.
